(** * Derived-table propagation and lifecycle core: a shallow embedding

    The development follows the source tree:
    - [CopyData]: [dbms/src/DataStreams/copyData.cpp];
    - [PushingToViews]: [dbms/src/DataStreams/PushingToViewsBlockOutputStream.h];
    - [MaterializedView]: [src/Storages/StorageMaterializedView.cpp];
    - [ExternalLoader]: [dbms/src/Interpreters/ExternalLoader.cpp];
    - [DictionaryStructure]: [dbms/src/Dictionaries/DictionaryStructure.cpp];
    - [StorageDictionary]: [dbms/src/Storages/StorageDictionary.cpp];
    - [AggregatingMemory]: [src/Storages/StorageAggregatingMemory.cpp]. *)

From Stdlib Require Import Ascii String.
From stdpp Require Import base numbers option list strings gmap.

Local Open Scope Z_scope.

(** ** Blocks and sinks (shared by the copier and the fan-out writer) *)

Record BlockInfo := mkBlockInfo {
  is_start_frame : bool;
  is_end_frame : bool
}.

(** Modelled from the spec: the [Block] type of [Core/Block.h], which is not
    among the sources.  A block is a columnar batch with a sample shape (its
    named typed columns), a number of rows and the two frame markers. *)
Record Block := mkBlock {
  columns : list (string * string);
  rows : nat;
  info : BlockInfo
}.

(** Modelled from the spec: [Block::operator bool], which ends the read loop
    ("if no block ever arrives"): a block without columns is no block. *)
Definition Block_bool (b : Block) : bool :=
  match columns b with
  | [] => false
  | _ :: _ => true
  end.

(** The calls of the [IBlockOutputStream] interface. *)
Inductive SinkCall :=
| SetSampleBlock (b : Block)
| WritePrefix
| Write (b : Block)
| WriteSuffix
| Flush
| SetRowsBeforeLimit (n : N)
| SetTotals (b : Block)
| SetExtremes (b : Block).

Module CopyData.

(** What [copyData] does to its two streams, in program order. *)
Inductive Event :=
| FromReadPrefix
| FromRead
| FromReadSuffix
| To (c : SinkCall).

(** [IProfilingBlockInputStream]: what the copier reads from it. *)
Record ProfileInfo := mkProfileInfo {
  hasAppliedLimit : bool;
  getRowsBeforeLimit : N;
  getTotals : Block;
  getExtremes : Block
}.

(** The input stream: the blocks [read()] returns, in order (after the last
    one it returns the empty block), and the profiling interface when the
    [dynamic_cast] succeeds. *)
Record InputStream := mkInputStream {
  blocks : list Block;
  profiling : option ProfileInfo
}.

(** [std::atomic<bool> * is_cancelled]: a null pointer, or a flag owned by
    another thread; [f t] is the value the [t]-th load observes. *)
Definition CancelFlag := option (nat -> bool).

Definition isAtomicSet (val : CancelFlag) (t : nat) : bool :=
  match val with
  | None => false
  | Some f => f t
  end.

(** The state of the [while] loop when it is left. *)
Record LoopExit := mkLoopExit {
  emitted : list Event;
  open_frame : bool;
  no_data : bool;
  loads : nat
}.

(** [while (Block block = from.read()) { ... }], from the flags
    [open_frame], [no_data] and after [t] loads of the flag. *)
Fixpoint copy_loop (is_cancelled : CancelFlag) (bs : list Block)
    (open no_dat : bool) (t : nat) : LoopExit :=
  match bs with
  | [] => mkLoopExit [FromRead] open no_dat t
  | block :: rest =>
      if Block_bool block then
        if isAtomicSet is_cancelled t then
          mkLoopExit [FromRead] open false (S t)
        else
          let starts := negb open || is_start_frame (info block) in
          let pre := if starts then [To (SetSampleBlock block); To WritePrefix] else [] in
          let open1 := if starts then true else open in
          let suf := if is_end_frame (info block) then [To WriteSuffix] else [] in
          let open2 := if is_end_frame (info block) then false else open1 in
          let r := copy_loop is_cancelled rest open2 false (S t) in
          mkLoopExit (FromRead :: pre ++ To (Write block) :: suf ++ emitted r)
                     (open_frame r) (no_data r) (loads r)
      else
        mkLoopExit [FromRead] open no_dat t
  end.

Definition profile_calls (p : option ProfileInfo) : list Event :=
  match p with
  | None => []
  | Some input =>
      (if hasAppliedLimit input
       then [To (SetRowsBeforeLimit (getRowsBeforeLimit input))] else [])
      ++ [To (SetTotals (getTotals input)); To (SetExtremes (getExtremes input))]
  end.

(** [copyData(from, to, is_cancelled)]: the calls made, in order. *)
Definition copyData (from : InputStream) (is_cancelled : CancelFlag) : list Event :=
  let r := copy_loop is_cancelled (blocks from) false true 0 in
  let ev1 := FromReadPrefix :: emitted r in
  let ev2 := if no_data r then ev1 ++ [To WritePrefix] else ev1 in
  let open := if no_data r then true else open_frame r in
  if isAtomicSet is_cancelled (loads r) then ev2
  else
    let ev3 := ev2 ++ profile_calls (profiling from) in
    if isAtomicSet is_cancelled (S (loads r)) then ev3
    else ev3 ++ [FromReadSuffix] ++ (if open then [To WriteSuffix] else []).

(** The calls the destination sink receives. *)
Definition sink_calls (evs : list Event) : list SinkCall :=
  omap (fun e => match e with To c => Some c | _ => None end) evs.

(** The blocks that arrive: those read before the first empty one. *)
Fixpoint arrived (bs : list Block) : list Block :=
  match bs with
  | [] => []
  | b :: rest => if Block_bool b then b :: arrived rest else []
  end.

(** *** Frame discipline of a sink trace *)

Definition is_prefix_call (c : SinkCall) : bool :=
  match c with WritePrefix => true | _ => false end.
Definition is_suffix_call (c : SinkCall) : bool :=
  match c with WriteSuffix => true | _ => false end.
Definition is_write_call (c : SinkCall) : bool :=
  match c with Write _ => true | _ => false end.

Definition count_calls (p : SinkCall -> bool) (cs : list SinkCall) : nat :=
  length (filter (fun c => Is_true (p c)) cs).

(** The frame calls of a trace: prefix, write and suffix, the rest dropped. *)
Definition frame_calls (cs : list SinkCall) : list SinkCall :=
  filter (fun c => Is_true (is_prefix_call c || is_write_call c || is_suffix_call c)) cs.

Inductive FrameState := Closed | OpenEmpty | OpenWritten.

(** A sink that accepts a prefix only when no frame is open, a write only
    inside a frame, and a suffix only after at least one write of its frame. *)
Definition frame_step (st : FrameState) (c : SinkCall) : option FrameState :=
  match c, st with
  | WritePrefix, Closed => Some OpenEmpty
  | WritePrefix, _ => None
  | Write _, Closed => None
  | Write _, _ => Some OpenWritten
  | WriteSuffix, OpenWritten => Some Closed
  | WriteSuffix, _ => None
  | _, _ => Some st
  end.

Fixpoint frames_run (st : FrameState) (cs : list SinkCall) : option FrameState :=
  match cs with
  | [] => Some st
  | c :: rest =>
      match frame_step st c with
      | Some st' => frames_run st' rest
      | None => None
      end
  end.

(** Every suffix closes a frame opened by its own prefix, with a write in
    between, and no frame is left open. *)
Definition well_framed (cs : list SinkCall) : bool :=
  match frames_run Closed cs with
  | Some Closed => true
  | _ => false
  end.

(** No block marked as a frame start arrives while a frame is open. *)
Fixpoint no_restart (open : bool) (bs : list Block) : bool :=
  match bs with
  | [] => true
  | b :: rest =>
      if Block_bool b then
        negb (open && is_start_frame (info b))
        && no_restart (negb (is_end_frame (info b))) rest
      else true
  end.

(** The claim of frame well-formedness, as the specification words it. *)
Definition frame_claim (from : InputStream) (is_cancelled : CancelFlag) : Prop :=
  let cs := sink_calls (copyData from is_cancelled) in
  count_calls is_prefix_call cs = count_calls is_suffix_call cs
  /\ match arrived (blocks from) with
     | [] => frame_calls cs = [WritePrefix; WriteSuffix]
     | _ :: _ => well_framed cs = true
     end.

Definition never_set (is_cancelled : CancelFlag) : Prop :=
  forall t, isAtomicSet is_cancelled t = false.

(** Sample blocks for the scenarios. *)
Definition blk (r : nat) (s e : bool) : Block :=
  mkBlock [("x"%string, "UInt64"%string)] r (mkBlockInfo s e).

(** *** Properties of the copier *)

Lemma frames_run_app st cs1 cs2 :
  frames_run st (cs1 ++ cs2) = frames_run st cs1 ≫= fun st' => frames_run st' cs2.
Proof.
  revert st. induction cs1 as [|c cs1 IH]; intros st; simpl; [done|].
  destruct (frame_step st c); simpl; [apply IH | done].
Qed.

Lemma sink_calls_app evs1 evs2 :
  sink_calls (evs1 ++ evs2) = sink_calls evs1 ++ sink_calls evs2.
Proof. apply omap_app. Qed.

Lemma count_calls_app p cs1 cs2 :
  count_calls p (cs1 ++ cs2) = (count_calls p cs1 + count_calls p cs2)%nat.
Proof. unfold count_calls. by rewrite filter_app, length_app. Qed.

Lemma count_calls_cons p c cs :
  count_calls p (c :: cs) = ((if p c then 1 else 0) + count_calls p cs)%nat.
Proof.
  unfold count_calls. rewrite filter_cons. by destruct (p c).
Qed.

Lemma frame_calls_app cs1 cs2 :
  frame_calls (cs1 ++ cs2) = frame_calls cs1 ++ frame_calls cs2.
Proof. apply filter_app. Qed.

(** The metadata calls are outside the frame discipline. *)
Lemma profile_calls_frames p st :
  frames_run st (sink_calls (profile_calls p)) = Some st.
Proof. destruct p as [[[] n tot ext]|]; destruct st; reflexivity. Qed.

Lemma profile_calls_frame_calls p :
  frame_calls (sink_calls (profile_calls p)) = [].
Proof. destruct p as [[[] n tot ext]|]; reflexivity. Qed.

Lemma profile_calls_count p q :
  q = is_prefix_call \/ q = is_suffix_call ->
  count_calls q (sink_calls (profile_calls p)) = 0%nat.
Proof. intros [-> | ->]; destruct p as [[[] n tot ext]|]; reflexivity. Qed.

Definition depth (st : FrameState) : nat :=
  match st with Closed => 0 | _ => 1 end.

(** An accepted trace has as many suffixes as prefixes, up to the frame that
    is open at its start and at its end. *)
Lemma frames_run_counts cs : forall st st',
  frames_run st cs = Some st' ->
  (count_calls is_prefix_call cs + depth st
   = count_calls is_suffix_call cs + depth st')%nat.
Proof.
  induction cs as [|c cs IH]; intros st st' Hrun; simpl in Hrun.
  - by inversion Hrun.
  - destruct (frame_step st c) as [st1|] eqn:Hstep; [|done].
    specialize (IH _ _ Hrun).
    change (c :: cs) with ([c] ++ cs). rewrite !count_calls_app.
    destruct c, st; simpl in Hstep; inversion Hstep; subst;
      unfold count_calls in *; simpl in *; lia.
Qed.

Definition frame_of (open : bool) : FrameState :=
  if open then OpenWritten else Closed.

(** The loop keeps the sink inside the frame discipline as long as no block
    restarts a frame that is open; a frame left open has seen a write. *)
Lemma copy_loop_frames is_cancelled bs : forall open no_dat t,
  never_set is_cancelled ->
  no_restart open bs = true ->
  let r := copy_loop is_cancelled bs open no_dat t in
  frames_run (frame_of open) (sink_calls (emitted r)) = Some (frame_of (open_frame r)).
Proof.
  induction bs as [|block rest IH]; intros open no_dat t Hnever Hin; simpl; [done|].
  simpl in Hin. destruct (Block_bool block); [|done].
  rewrite Hnever. apply andb_prop in Hin as [Hstart Hrest].
  specialize (IH (negb (is_end_frame (info block))) false (S t) Hnever Hrest).
  simpl in IH.
  destruct open, (is_start_frame (info block)), (is_end_frame (info block));
    simpl in *; try done; rewrite ?sink_calls_app; simpl; exact IH.
Qed.

(** Once a block has been read, [no_data] stays false. *)
Lemma copy_loop_seen_data is_cancelled bs : forall open t,
  no_data (copy_loop is_cancelled bs open false t) = false.
Proof.
  induction bs as [|block rest IH]; intros open t; simpl; [done|].
  destruct (Block_bool block); [|done].
  destruct (isAtomicSet is_cancelled t); [done|]. simpl. apply IH.
Qed.

(** Whether the loop saw data is decided by the blocks that arrived. *)
Lemma copy_loop_no_data is_cancelled bs : forall open no_dat t,
  never_set is_cancelled ->
  let r := copy_loop is_cancelled bs open no_dat t in
  match arrived bs with
  | [] => emitted r = [FromRead] /\ open_frame r = open /\ no_data r = no_dat
  | _ :: _ => no_data r = false
  end.
Proof.
  destruct bs as [|block rest]; intros open no_dat t Hnever; simpl; [done|].
  destruct (Block_bool block) eqn:Hb; [|done].
  rewrite Hnever. simpl. apply copy_loop_seen_data.
Qed.

(** A flag that is never set is not seen by the loop. *)
Lemma copy_loop_never_set f bs : forall open no_dat t,
  (forall t, f t = false) ->
  copy_loop (Some f) bs open no_dat t = copy_loop None bs open no_dat t.
Proof.
  induction bs as [|block rest IH]; intros open no_dat t Hf; simpl; [done|].
  destruct (Block_bool block); [|done].
  by rewrite Hf, IH.
Qed.

(** The scenarios of the specification: a frame of two blocks, two frames of
    one block each, and the empty input. *)
Example two_block_single_frame :
  sink_calls (copyData (mkInputStream [blk 2 true false; blk 3 false true] None) None)
  = [SetSampleBlock (blk 2 true false); WritePrefix; Write (blk 2 true false);
     Write (blk 3 false true); WriteSuffix].
Proof. reflexivity. Qed.

Example two_disjoint_frames :
  frame_calls
    (sink_calls (copyData (mkInputStream [blk 1 true true; blk 1 true true] None) None))
  = [WritePrefix; Write (blk 1 true true); WriteSuffix;
     WritePrefix; Write (blk 1 true true); WriteSuffix].
Proof. reflexivity. Qed.

Example empty_input :
  copyData (mkInputStream [] None) None
  = [FromReadPrefix; FromRead; To WritePrefix; FromReadSuffix; To WriteSuffix].
Proof. reflexivity. Qed.

(** A cancellation seen after the prefix of the empty frame: no suffix. *)
Example empty_input_cancelled :
  copyData (mkInputStream [] None) (Some (fun _ => true))
  = [FromReadPrefix; FromRead; To WritePrefix].
Proof. reflexivity. Qed.

(** C9: copying with a cancel flag that is never set makes exactly the calls
    (on the source and on the destination sink, in the same order) that
    copying with no flag, a null pointer, makes. *)
Theorem copyData_never_set_flag (from : InputStream) (f : nat -> bool) :
  (forall t, f t = false) ->
  copyData from (Some f) = copyData from None.
Proof.
  intros Hf. unfold copyData.
  rewrite (copy_loop_never_set f (blocks from) false true 0%nat Hf).
  simpl. by rewrite !Hf.
Qed.

Lemma copyData_never_set_flag_witness :
  (forall t : nat, (fun _ : nat => false) t = false)
  /\ copyData (mkInputStream [blk 2 true false; blk 3 false true] None)
              (Some (fun _ => false))
     = copyData (mkInputStream [blk 2 true false; blk 3 false true] None) None.
Proof.
  split; [reflexivity|].
  apply (copyData_never_set_flag
           (mkInputStream [blk 2 true false; blk 3 false true] None)
           (fun _ => false)).
  reflexivity.
Defined.

(** C1, as stated, fails: a block marked as a frame start that arrives while
    a frame is open gets a second prefix, so the sink sees two prefixes and
    one suffix. *)
Lemma copyData_restart_counterexample :
  never_set None
  /\ sink_calls (copyData (mkInputStream [blk 2 true false; blk 3 true true] None) None)
     = [SetSampleBlock (blk 2 true false); WritePrefix; Write (blk 2 true false);
        SetSampleBlock (blk 3 true true); WritePrefix; Write (blk 3 true true);
        WriteSuffix]
  /\ ~ frame_claim (mkInputStream [blk 2 true false; blk 3 true true] None) None.
Proof.
  split; [intros t; reflexivity|]. split; [reflexivity|].
  intros [Hcount _]. vm_compute in Hcount. discriminate Hcount.
Qed.

(** C1, amended: when no cancellation is observed and no block marked as a
    frame start arrives while a frame is open, the sink receives as many
    prefixes as suffixes, every suffix closes a frame opened by its own
    prefix with at least one write in between, and no frame is left open;
    on an empty input the frame calls are exactly one prefix followed by one
    suffix. *)
Theorem copyData_frames_well_formed (from : InputStream) (is_cancelled : CancelFlag) :
  never_set is_cancelled ->
  no_restart false (blocks from) = true ->
  frame_claim from is_cancelled.
Proof.
  intros Hnever Hin. unfold frame_claim, copyData.
  pose proof (copy_loop_frames is_cancelled (blocks from) false true 0%nat Hnever Hin) as Hrun.
  pose proof (copy_loop_no_data is_cancelled (blocks from) false true 0%nat Hnever) as Hnd.
  simpl in Hrun, Hnd. rewrite !Hnever.
  destruct (arrived (blocks from)) as [|b bs'].
  - destruct Hnd as (-> & _ & ->). simpl.
    rewrite sink_calls_app, !count_calls_cons, !count_calls_app.
    rewrite !profile_calls_count by auto.
    split; [reflexivity|].
    change (WritePrefix :: ?l) with ([WritePrefix] ++ l).
    rewrite !frame_calls_app.
    by rewrite profile_calls_frame_calls.
  - rewrite Hnd.
    assert (frames_run Closed
              (sink_calls
                 ((FromReadPrefix
                   :: emitted (copy_loop is_cancelled (blocks from) false true 0)
                   ++ profile_calls (profiling from))
                  ++ [FromReadSuffix]
                  ++ (if open_frame (copy_loop is_cancelled (blocks from) false true 0)
                      then [To WriteSuffix] else []))) = Some Closed) as Hall.
    { rewrite sink_calls_app. simpl. rewrite sink_calls_app, !frames_run_app.
      rewrite Hrun. simpl. rewrite profile_calls_frames. simpl.
      by destruct (open_frame _). }
    split.
    + pose proof (frames_run_counts _ _ _ Hall) as Hcount.
      cbn [depth] in Hcount. rewrite !Nat.add_0_r in Hcount. exact Hcount.
    + unfold well_framed.
      change (FromReadPrefix :: ?l ++ ?p) with ((FromReadPrefix :: l) ++ p) in Hall.
      by rewrite Hall.
Qed.

Lemma copyData_frames_well_formed_witness :
  never_set None
  /\ no_restart false [blk 2 true false; blk 3 false true] = true
  /\ frame_claim (mkInputStream [blk 2 true false; blk 3 false true] None) None.
Proof.
  split; [intros t; reflexivity|]. split; [reflexivity|].
  apply (copyData_frames_well_formed
           (mkInputStream [blk 2 true false; blk 3 false true] None) None).
  - intros t; reflexivity.
  - reflexivity.
Defined.

(** *** What the sink receives, for every input and every cancel flag *)

(** The blocks written to the sink. *)
Definition written (cs : list SinkCall) : list Block :=
  omap (fun c => match c with Write b => Some b | _ => None end) cs.

(** The flag, once set, stays set. *)
Definition stays_set (f : nat -> bool) : Prop :=
  forall t, f t = true -> f (S t) = true.

(** A sink that accepts a prefix at any time, and a write or a suffix only
    inside an open frame. *)
Definition frame_step_lax (st : FrameState) (c : SinkCall) : option FrameState :=
  match c, st with
  | WritePrefix, _ => Some OpenEmpty
  | Write _, Closed => None
  | Write _, _ => Some OpenWritten
  | WriteSuffix, Closed => None
  | WriteSuffix, _ => Some Closed
  | _, _ => Some st
  end.

Fixpoint frames_run_lax (st : FrameState) (cs : list SinkCall) : option FrameState :=
  match cs with
  | [] => Some st
  | c :: rest =>
      match frame_step_lax st c with
      | Some st' => frames_run_lax st' rest
      | None => None
      end
  end.

#[local] Instance BlockInfo_eq_dec : EqDecision BlockInfo.
Proof. solve_decision. Defined.
#[local] Instance Block_eq_dec : EqDecision Block.
Proof. solve_decision. Defined.

(** Every prefix comes right after the sample block of the block that is
    written right after it. *)
Fixpoint announced (cs : list SinkCall) : bool :=
  match cs with
  | [] => true
  | SetSampleBlock b :: WritePrefix :: Write b' :: rest =>
      bool_decide (b = b') && announced rest
  | WritePrefix :: _ => false
  | _ :: rest => announced rest
  end.

Lemma written_app cs1 cs2 : written (cs1 ++ cs2) = written cs1 ++ written cs2.
Proof. apply omap_app. Qed.

Lemma written_profile_calls p : written (sink_calls (profile_calls p)) = [].
Proof. by destruct p as [[[] n tot ext]|]. Qed.

Lemma copy_loop_written is_cancelled bs : forall open no_dat t,
  written (sink_calls (emitted (copy_loop is_cancelled bs open no_dat t)))
    `prefix_of` arrived bs
  /\ (never_set is_cancelled ->
      written (sink_calls (emitted (copy_loop is_cancelled bs open no_dat t)))
      = arrived bs).
Proof.
  induction bs as [|block rest IH]; intros open no_dat t; simpl; [done|].
  destruct (Block_bool block); [|done].
  destruct (isAtomicSet is_cancelled t) eqn:Hset.
  - split; [apply prefix_nil|]. intros Hnever. by rewrite Hnever in Hset.
  - simpl.
    destruct (IH (if is_end_frame (info block) then false
                  else if negb open || is_start_frame (info block) then true else open)
                 false (S t)) as [Hpre Heq].
    assert (forall evs,
              written (sink_calls
                ((if negb open || is_start_frame (info block)
                  then [To (SetSampleBlock block); To WritePrefix] else [])
                 ++ To (Write block)
                 :: (if is_end_frame (info block) then [To WriteSuffix] else []) ++ evs))
              = block :: written (sink_calls evs)) as Hstep.
    { intros evs.
      by destruct (negb open || is_start_frame (info block)),
                  (is_end_frame (info block)). }
    rewrite Hstep. split; [by apply prefix_cons|].
    intros Hnever. by rewrite Heq.
Qed.

(** X1: the blocks written to the sink are the first blocks that arrived, in
    their order, whatever the cancel flag does; without cancellation they
    are all the blocks that arrived. *)
Theorem copyData_writes_arrived (from : InputStream) (is_cancelled : CancelFlag) :
  written (sink_calls (copyData from is_cancelled)) `prefix_of` arrived (blocks from)
  /\ (never_set is_cancelled ->
      written (sink_calls (copyData from is_cancelled)) = arrived (blocks from)).
Proof.
  destruct (copy_loop_written is_cancelled (blocks from) false true 0%nat)
    as [Hpre Heq].
  assert (forall tail,
            written (sink_calls tail) = [] ->
            written (sink_calls
              ((if no_data (copy_loop is_cancelled (blocks from) false true 0)
                then (FromReadPrefix
                      :: emitted (copy_loop is_cancelled (blocks from) false true 0))
                     ++ [To WritePrefix]
                else FromReadPrefix
                     :: emitted (copy_loop is_cancelled (blocks from) false true 0))
               ++ tail))
            = written (sink_calls
                (emitted (copy_loop is_cancelled (blocks from) false true 0)))) as Hshape.
  { intros tail Htail. rewrite sink_calls_app, written_app, Htail, app_nil_r.
    destruct (no_data _); simpl; [|done].
    by rewrite sink_calls_app, written_app, app_nil_r. }
  assert (written (sink_calls (copyData from is_cancelled))
          = written (sink_calls
              (emitted (copy_loop is_cancelled (blocks from) false true 0)))) as ->.
  { unfold copyData. cbv zeta.
    destruct (isAtomicSet is_cancelled (loads _)).
    - rewrite <- (Hshape []) by done. by rewrite app_nil_r.
    - destruct (isAtomicSet is_cancelled (S (loads _))).
      + apply Hshape, written_profile_calls.
      + rewrite <- app_assoc. apply Hshape.
        rewrite sink_calls_app, written_app, written_profile_calls.
        by destruct (if no_data _ then true else _). }
  done.
Qed.

Lemma copyData_writes_arrived_witness :
  written (sink_calls (copyData (mkInputStream [blk 2 true false; blk 3 false true] None)
                                None))
  = [blk 2 true false; blk 3 false true].
Proof.
  apply (copyData_writes_arrived
           (mkInputStream [blk 2 true false; blk 3 false true] None) None).
  intros t. reflexivity.
Defined.

Lemma copy_loop_stays_set f bs : forall open no_dat t,
  stays_set f ->
  let r := copy_loop (Some f) bs open no_dat t in
  let r0 := copy_loop None bs open no_dat t in
  r = r0
  \/ (f (loads r) = true /\ no_data r = false /\ no_data r0 = false
      /\ sink_calls (emitted r) `prefix_of` sink_calls (emitted r0)).
Proof.
  induction bs as [|block rest IH]; intros open no_dat t Hstays; simpl; [by left|].
  destruct (Block_bool block); [|by left].
  destruct (f t) eqn:Hset.
  - right. simpl. split; [by apply Hstays|]. split; [done|].
    split; [apply copy_loop_seen_data | apply prefix_nil].
  - simpl.
    destruct (IH (if is_end_frame (info block) then false
                  else if negb open || is_start_frame (info block) then true else open)
                 false (S t) Hstays) as [-> | (Hload & Hnd & Hnd0 & Hpre)];
      [by left|].
    right. split; [done|]. split; [done|]. split; [done|].
    change (FromRead :: ?p ++ To (Write block) :: ?s ++ ?e)
      with ((FromRead :: p ++ To (Write block) :: s) ++ e).
    rewrite !app_comm_cons, !(app_assoc _ (_ :: _)).
    rewrite !sink_calls_app. by apply prefix_app.
Qed.

(** X2: with a flag that stays set once it is set, cancellation only cuts
    the copy short: the calls the sink receives are the first calls it
    receives when there is no flag. *)
Theorem copyData_cancel_truncates (from : InputStream) (f : nat -> bool) :
  stays_set f ->
  sink_calls (copyData from (Some f)) `prefix_of` sink_calls (copyData from None).
Proof.
  intros Hstays. unfold copyData. cbv zeta. cbn [isAtomicSet].
  destruct (copy_loop_stays_set f (blocks from) false true 0%nat Hstays)
    as [-> | (Hload & Hnd & Hnd0 & Hpre)].
  - destruct (f (loads _)); [|destruct (f (S (loads _)))].
    + rewrite 2!sink_calls_app. by apply prefix_app_r, prefix_app_r.
    + rewrite (sink_calls_app (_ ++ _)). by apply prefix_app_r.
    + done.
  - rewrite Hload, Hnd, Hnd0.
    change (FromReadPrefix :: ?e) with ([FromReadPrefix] ++ e).
    rewrite !sink_calls_app. rewrite <- !app_assoc.
    by apply prefix_app, prefix_app_r.
Qed.

Lemma copyData_cancel_truncates_witness :
  stays_set (fun t => bool_decide (1 <= t)%nat)
  /\ sink_calls (copyData (mkInputStream [blk 2 true false; blk 3 false true] None)
                          (Some (fun t => bool_decide (1 <= t)%nat)))
     `prefix_of`
     sink_calls (copyData (mkInputStream [blk 2 true false; blk 3 false true] None) None).
Proof.
  assert (stays_set (fun t => bool_decide (1 <= t)%nat)) as Hstays.
  { intros t Ht. apply bool_decide_eq_true in Ht. apply bool_decide_eq_true. lia. }
  split; [exact Hstays|].
  apply (copyData_cancel_truncates
           (mkInputStream [blk 2 true false; blk 3 false true] None)
           (fun t => bool_decide (1 <= t)%nat) Hstays).
Defined.

(** A flag that is cleared again after the loop has seen it set: the copy
    goes on to the closing calls, which is why [stays_set] is needed. *)
Example flag_cleared_again :
  sink_calls (copyData (mkInputStream [blk 2 true false; blk 3 false true] None)
                       (Some (fun t => bool_decide (t = 1%nat))))
  = [SetSampleBlock (blk 2 true false); WritePrefix; Write (blk 2 true false);
     WriteSuffix].
Proof. reflexivity. Qed.

Lemma copy_loop_read_data is_cancelled bs open t :
  arrived bs <> [] -> no_data (copy_loop is_cancelled bs open true t) = false.
Proof.
  destruct bs as [|block rest]; simpl; [done|].
  destruct (Block_bool block); [|done]. intros _.
  destruct (isAtomicSet is_cancelled t); [done|]. simpl. apply copy_loop_seen_data.
Qed.

Lemma copy_loop_announced is_cancelled bs tail : forall open no_dat t,
  announced (sink_calls (emitted (copy_loop is_cancelled bs open no_dat t)) ++ tail)
  = announced tail.
Proof.
  induction bs as [|block rest IH]; intros open no_dat t; simpl; [done|].
  destruct (Block_bool block); [|done].
  destruct (isAtomicSet is_cancelled t); [done|]. simpl.
  destruct (negb open || is_start_frame (info block)), (is_end_frame (info block));
    simpl; rewrite ?sink_calls_app; simpl; rewrite ?bool_decide_eq_true_2 by done;
    simpl; apply IH.
Qed.

(** X3: on an input that is not empty, every [writePrefix] the sink receives
    comes right after [setSampleBlock] of the block whose [write] follows
    it, whatever the cancel flag does. *)
Theorem copyData_prefix_announced (from : InputStream) (is_cancelled : CancelFlag) :
  arrived (blocks from) <> [] ->
  announced (sink_calls (copyData from is_cancelled)) = true.
Proof.
  intros Hdata. unfold copyData. cbv zeta.
  rewrite (copy_loop_read_data is_cancelled (blocks from) false 0%nat Hdata).
  change (FromReadPrefix :: ?e) with ([FromReadPrefix] ++ e).
  destruct (isAtomicSet is_cancelled (loads _)).
  - rewrite sink_calls_app. simpl.
    rewrite <- (app_nil_r (sink_calls _)). apply copy_loop_announced.
  - destruct (isAtomicSet is_cancelled (S (loads _)));
      rewrite <- !app_assoc, (sink_calls_app [FromReadPrefix]), (sink_calls_app (emitted _));
      simpl; rewrite copy_loop_announced.
    + by destruct (profiling from) as [[[] n tot ext]|].
    + rewrite sink_calls_app. simpl.
      by destruct (profiling from) as [[[] n tot ext]|], (open_frame _).
Qed.

Lemma copyData_prefix_announced_witness :
  announced
    (sink_calls (copyData (mkInputStream [blk 2 true false; blk 3 true true] None) None))
  = true.
Proof.
  apply (copyData_prefix_announced
           (mkInputStream [blk 2 true false; blk 3 true true] None) None).
  discriminate.
Defined.

(** On the empty input the prefix comes without a sample block. *)
Example empty_input_not_announced :
  announced (sink_calls (copyData (mkInputStream [] None) None)) = false.
Proof. reflexivity. Qed.

Definition is_open (st : FrameState) : bool :=
  match st with Closed => false | _ => true end.

Lemma frames_run_lax_app st cs1 cs2 :
  frames_run_lax st (cs1 ++ cs2)
  = frames_run_lax st cs1 ≫= fun st' => frames_run_lax st' cs2.
Proof.
  revert st. induction cs1 as [|c cs1 IH]; intros st; simpl; [done|].
  destruct (frame_step_lax st c); simpl; [apply IH | done].
Qed.

Lemma profile_calls_lax p st :
  frames_run_lax st (sink_calls (profile_calls p)) = Some st.
Proof. destruct p as [[[] n tot ext]|]; destruct st; reflexivity. Qed.

Lemma copy_loop_lax is_cancelled bs : forall open no_dat t st,
  is_open st = open ->
  exists st',
    frames_run_lax st (sink_calls (emitted (copy_loop is_cancelled bs open no_dat t)))
    = Some st'
    /\ is_open st' = open_frame (copy_loop is_cancelled bs open no_dat t).
Proof.
  induction bs as [|block rest IH]; intros open no_dat t st Hst; simpl; [by eauto|].
  destruct (Block_bool block); [|by eauto].
  destruct (isAtomicSet is_cancelled t); [by eauto|]. simpl.
  destruct (IH (if is_end_frame (info block) then false
                else if negb open || is_start_frame (info block) then true else open)
               false (S t)
               (if is_end_frame (info block) then Closed else OpenWritten))
    as (st' & Hrun & Hopen).
  { subst open.
    by destruct (is_end_frame (info block)), st, (is_start_frame (info block)). }
  exists st'. split; [|done]. subst open.
  destruct st, (is_start_frame (info block)), (is_end_frame (info block));
    simpl in *; rewrite ?sink_calls_app; simpl; exact Hrun.
Qed.

(** X4: whatever the input and whatever the cancel flag does, the sink never
    receives a write or a suffix outside an open frame; and without
    cancellation no frame is left open at the end. *)
Theorem copyData_never_outside_frame (from : InputStream) (is_cancelled : CancelFlag) :
  exists st,
    frames_run_lax Closed (sink_calls (copyData from is_cancelled)) = Some st
    /\ (never_set is_cancelled -> st = Closed).
Proof.
  unfold copyData. cbv zeta.
  destruct (copy_loop_lax is_cancelled (blocks from) false true 0%nat Closed eq_refl)
    as (st1 & Hrun & Hopen).
  set (r := copy_loop is_cancelled (blocks from) false true 0) in *.
  assert (exists st2,
            frames_run_lax Closed
              (sink_calls (if no_data r then (FromReadPrefix :: emitted r) ++ [To WritePrefix]
                           else FromReadPrefix :: emitted r)) = Some st2
            /\ is_open st2 = (if no_data r then true else open_frame r))
    as (st2 & Hrun2 & Hopen2).
  { destruct (no_data r).
    - exists OpenEmpty. rewrite sink_calls_app. simpl.
      rewrite frames_run_lax_app, Hrun. by destruct st1.
    - exists st1. by simpl. }
  destruct (isAtomicSet is_cancelled (loads r)) eqn:Hc1.
  { exists st2. split; [done|]. intros Hnever. by rewrite Hnever in Hc1. }
  destruct (isAtomicSet is_cancelled (S (loads r))) eqn:Hc2.
  { exists st2. split; [|intros Hnever; by rewrite Hnever in Hc2].
    by rewrite sink_calls_app, frames_run_lax_app, Hrun2; simpl;
      rewrite profile_calls_lax. }
  exists Closed. split; [|done].
  rewrite !sink_calls_app, !frames_run_lax_app, Hrun2. simpl.
  rewrite profile_calls_lax. simpl. rewrite <- Hopen2. by destruct st2.
Qed.

End CopyData.

Module PushingToViews.

(** The sinks live in a store, each with the calls it has received;
    [BlockOutputStreamPtr] is a key of the store. *)
Definition SinkPtr := nat.
Abbreviation Sinks := (gmap SinkPtr (list SinkCall)).

Definition received (σ : Sinks) (p : SinkPtr) : list SinkCall :=
  default [] (σ !! p).

Definition call (p : SinkPtr) (c : SinkCall) (σ : Sinks) : Sinks :=
  <[p := received σ p ++ [c]]> σ.

(** The members the three methods read: [output] (null under
    [no_destination]) and [views], each dependent view with its sub-writer. *)
Record PushingToViewsBlockOutputStream := mkPushing {
  storage : string;
  output : option SinkPtr;
  views : list (string * SinkPtr)
}.

Definition flush (s : PushingToViewsBlockOutputStream) (σ : Sinks) : Sinks :=
  match output s with
  | Some out => call out Flush σ
  | None => σ
  end.

Definition writePrefix (s : PushingToViewsBlockOutputStream) (σ : Sinks) : Sinks :=
  match output s with
  | Some out => call out WritePrefix σ
  | None => σ
  end.

Definition writeSuffix (s : PushingToViewsBlockOutputStream) (σ : Sinks) : Sinks :=
  match output s with
  | Some out => call out WriteSuffix σ
  | None => σ
  end.

(** The sinks the writer holds: the primary one and the views' sub-writers. *)
Definition held_sinks (s : PushingToViewsBlockOutputStream) : list SinkPtr :=
  option_list (output s) ++ (views s).*2.

(** The claim of broadcast, as the specification words it: the call reaches
    every held sink. *)
Definition broadcasts (m : PushingToViewsBlockOutputStream -> Sinks -> Sinks)
    (c : SinkCall) : Prop :=
  forall s σ p, p ∈ held_sinks s -> received (m s σ) p = received σ p ++ [c].

(** What the methods do: the call reaches the primary sink, when there is
    one, and no other sink of the store. *)
Definition forwards_to_primary_only
    (m : PushingToViewsBlockOutputStream -> Sinks -> Sinks) (c : SinkCall) : Prop :=
  forall s σ p,
    received (m s σ) p
    = if bool_decide (output s = Some p) then received σ p ++ [c] else received σ p.

Definition one_view : PushingToViewsBlockOutputStream :=
  mkPushing "T" (Some 0%nat) [("V"%string, 1%nat)].

Lemma received_call p q c σ :
  received (call p c σ) q
  = if bool_decide (p = q) then received σ q ++ [c] else received σ q.
Proof.
  unfold received at 1, call. rewrite lookup_insert.
  case_decide; case_bool_decide; subst; done.
Qed.

Lemma forwards_output m c :
  (forall s σ, m s σ = match output s with Some out => call out c σ | None => σ end) ->
  forwards_to_primary_only m c.
Proof.
  intros Hm s σ p. rewrite Hm. destruct (output s) as [out|].
  - rewrite received_call. repeat case_bool_decide; congruence.
  - by rewrite bool_decide_eq_false_2.
Qed.

(** C2, as stated, fails: the sub-writer of a dependent view receives
    nothing from [writePrefix], [writeSuffix] and [flush]. *)
Lemma views_not_reached_counterexample :
  1%nat ∈ held_sinks one_view
  /\ received (writePrefix one_view ∅) 1%nat = []
  /\ received (writeSuffix one_view ∅) 1%nat = []
  /\ received (flush one_view ∅) 1%nat = []
  /\ ~ broadcasts writePrefix WritePrefix
  /\ ~ broadcasts writeSuffix WriteSuffix
  /\ ~ broadcasts flush Flush.
Proof.
  assert (1%nat ∈ held_sinks one_view) as Hin by (vm_compute; set_solver).
  repeat split; try done.
  all: intros Hb; specialize (Hb one_view ∅ 1%nat Hin); vm_compute in Hb; discriminate Hb.
Qed.

(** C2, amended: each call to [writePrefix], [writeSuffix] or [flush] is
    forwarded to the primary sink, when the writer holds one, and to no other
    sink: the sub-writers of the dependent views are not called. *)
Theorem prefix_suffix_flush_primary_only :
  forwards_to_primary_only writePrefix WritePrefix
  /\ forwards_to_primary_only writeSuffix WriteSuffix
  /\ forwards_to_primary_only flush Flush.
Proof. repeat split; by apply forwards_output. Qed.

End PushingToViews.

Module MaterializedView.

Definition UUID := N.
Definition Nil : UUID := 0%N.

Record StorageID := mkStorageID {
  database_name : string;
  table_name : string;
  uuid : UUID
}.

Definition hasUUID (id : StorageID) : bool := negb (N.eqb (uuid id) Nil).

Definition Exception := string.

(** A table of the catalog: its identity, its CREATE statement and its rows. *)
Record Table := mkTable {
  table_uuid : UUID;
  definition : string;
  table_rows : list Z
}.

(** The catalog, by database and table name. *)
Abbreviation Catalog := (gmap (string * string) Table).

(** [ASTRenameQuery::Element]: the two [Table]s, each a database and a name. *)
Record Element := mkElement {
  from : string * string;
  to : string * string
}.

(** What [std::move] leaves of an element: its strings emptied. *)
Definition moved_from (e : Element) : Element :=
  mkElement (""%string, ""%string) (""%string, ""%string).

(** The statements [refresh] hands to the interpreters and to the catalog. *)
Inductive Statement :=
| GetCreateTableQuery (db table : string)
| Create (db table : string) (id : UUID)
| InsertSelect (db table : string)
| Rename (elements : list Element) (exchange : bool)
| GetTable (db table : string)
| Drop (db table : string).

(** The world outside the view: the catalog, the clock, the next identity the
    engine hands out, the statements issued so far, and which statements
    fail (an interpreter may throw on any of them). *)
Record World := mkWorld {
  catalog : Catalog;
  now : Z;
  next_uuid : UUID;
  issued : list Statement;
  fails : Statement -> option Exception
}.

Definition issue (s : Statement) (w : World) : World :=
  mkWorld (catalog w) (now w) (next_uuid w) (issued w ++ [s]) (fails w).

Definition set_catalog (c : Catalog) (w : World) : World :=
  mkWorld c (now w) (next_uuid w) (issued w) (fails w).

(** Modelled from the spec: [IDatabase::getCreateTableQuery], the CREATE
    statement of the target table ("Fetch the target's CREATE statement"). *)
Definition getCreateTableQuery (db table : string) (w : World)
    : (Exception + string) * World :=
  let s := GetCreateTableQuery db table in
  match fails w s with
  | Some e => (inl e, issue s w)
  | None =>
      match catalog w !! (db, table) with
      | Some t => (inr (definition t), issue s w)
      | None => (inl "UNKNOWN_TABLE"%string, issue s w)
      end
  end.

(** Modelled from the spec: [executeQuery] on the CREATE statement with the
    table name substituted and the identity left to the engine ("execute
    that CREATE"). *)
Definition executeCreate (db table def : string) (w : World)
    : option Exception * World :=
  let s := Create db table Nil in
  match fails w s with
  | Some e => (Some e, issue s w)
  | None =>
      match catalog w !! (db, table) with
      | Some _ => (Some "TABLE_ALREADY_EXISTS"%string, issue s w)
      | None =>
          let w1 := issue s w in
          (None, mkWorld (<[(db, table) := mkTable (next_uuid w) def []]> (catalog w))
                         (now w1) (N.succ (next_uuid w)) (issued w1) (fails w1))
      end
  end.

(** Modelled from the spec: [executeQuery] on "INSERT INTO db.table SELECT",
    which appends the rows the saved SELECT returns on the catalog. *)
Definition executeInsert (db table : string) (select : Catalog -> list Z) (w : World)
    : option Exception * World :=
  let s := InsertSelect db table in
  match fails w s with
  | Some e => (Some e, issue s w)
  | None =>
      match catalog w !! (db, table) with
      | None => (Some "UNKNOWN_TABLE"%string, issue s w)
      | Some t =>
          (None, set_catalog
                   (<[(db, table) := mkTable (table_uuid t) (definition t)
                                             (table_rows t ++ select (catalog w))]>
                      (catalog w))
                   (issue s w))
      end
  end.

(** Modelled from the spec: [InterpreterRenameQuery] with [exchange] set
    ("Issue a RENAME EXCHANGE between .tmp<innerName> and the target"): the
    two tables of the leading element swap names.  The query also carries the
    element a second time, as [refresh] appends it again after moving it. *)
Definition executeRename (elements : list Element) (w : World)
    : option Exception * World :=
  let s := Rename elements true in
  match fails w s with
  | Some e => (Some e, issue s w)
  | None =>
      match elements with
      | [] => (None, issue s w)
      | elem :: _ =>
          match catalog w !! from elem, catalog w !! to elem with
          | Some a, Some b =>
              (None, set_catalog (<[from elem := b]> (<[to elem := a]> (catalog w)))
                                 (issue s w))
          | _, _ => (Some "UNKNOWN_TABLE"%string, issue s w)
          end
      end
  end.

(** Modelled from the spec: [DatabaseCatalog::getTable(...)->getStorageID()]. *)
Definition getTable (db table : string) (w : World)
    : (Exception + StorageID) * World :=
  let s := GetTable db table in
  match fails w s with
  | Some e => (inl e, issue s w)
  | None =>
      match catalog w !! (db, table) with
      | Some t => (inr (mkStorageID db table (table_uuid t)), issue s w)
      | None => (inl "UNKNOWN_TABLE"%string, issue s w)
      end
  end.

(** Modelled from the spec: [InterpreterDropQuery] of kind [Drop]. *)
Definition executeDrop (db table : string) (w : World)
    : option Exception * World :=
  let s := Drop db table in
  match fails w s with
  | Some e => (Some e, issue s w)
  | None =>
      match catalog w !! (db, table) with
      | Some _ => (None, set_catalog (delete (db, table) (catalog w)) (issue s w))
      | None => (Some "UNKNOWN_TABLE"%string, issue s w)
      end
  end.

(** The members of [StorageMaterializedView] that [refresh] uses; the saved
    SELECT is kept as the rows it returns on a catalog. *)
Record StorageMaterializedView := mkView {
  getStorageID : StorageID;
  target_table_id : StorageID;
  has_inner_table : bool;
  select_query : Catalog -> list Z;
  last_refresh_time : Z
}.

Definition set_target_table_id (id : StorageID) (this : StorageMaterializedView) :=
  mkView (getStorageID this) id (has_inner_table this) (select_query this)
         (last_refresh_time this).

Definition set_last_refresh_time (t : Z) (this : StorageMaterializedView) :=
  mkView (getStorageID this) (target_table_id this) (has_inner_table this)
         (select_query this) t.

(** How the [try] block of [refresh] is left. *)
Record TryExit := mkTryExit {
  thrown : option Exception;
  view : StorageMaterializedView;
  world : World;
  created : bool;
  replaced : bool
}.

Section Refresh.

(** [toString(UUID)], of [IO/WriteHelpers.h]. *)
Variable toString : UUID -> string.

Definition generateInnerTableName (view_id : StorageID) : string :=
  if hasUUID view_id then ".inner_id." +:+ toString (uuid view_id)
  else ".inner." +:+ table_name view_id.

Definition table_to_replace_name (this : StorageMaterializedView) : string :=
  ".tmp" +:+ generateInnerTableName (getStorageID this).

(** The [try] block of [refresh]. *)
Definition refresh_try (this : StorageMaterializedView) (w : World) : TryExit :=
  let db := database_name (target_table_id this) in
  let target := table_name (target_table_id this) in
  let tmp := table_to_replace_name this in
  match getCreateTableQuery db target w with
  | (inl e, w) => mkTryExit (Some e) this w false false
  | (inr create_query, w) =>
  match executeCreate db tmp create_query w with
  | (Some e, w) => mkTryExit (Some e) this w false false
  | (None, w) =>
  match executeInsert db tmp (select_query this) w with
  | (Some e, w) => mkTryExit (Some e) this w true false
  | (None, w) =>
  let elem := mkElement (db, tmp) (db, target) in
  match executeRename [elem; moved_from elem] w with
  | (Some e, w) => mkTryExit (Some e) this w true false
  | (None, w) =>
  match getTable db target w with
  | (inl e, w) => mkTryExit (Some e) this w true false
  | (inr id, w) =>
  let this := set_target_table_id id this in
  match executeDrop db tmp w with
  | (Some e, w) => mkTryExit (Some e) this w true true
  | (None, w) => mkTryExit None this w true true
  end end end end end end.

(** [StorageMaterializedView::refresh]: what is thrown, if anything, and the
    view and the world it leaves. *)
Definition refresh (this : StorageMaterializedView) (w : World)
    : option Exception * StorageMaterializedView * World :=
  let db := database_name (target_table_id this) in
  let tmp := table_to_replace_name this in
  let r := refresh_try this w in
  match thrown r with
  | Some e =>
      if created r && negb (replaced r) then
        match executeDrop db tmp (world r) with
        | (Some e', w') => (Some e', view r, w')
        | (None, w') => (Some e, view r, w')
        end
      else (Some e, view r, world r)
  | None =>
      (None, set_last_refresh_time (now (world r)) (view r), world r)
  end.

(** What a reader of the view is served: the target table. *)
Definition getTargetTable (this : StorageMaterializedView) (w : World) : option Table :=
  catalog w !! (database_name (target_table_id this), table_name (target_table_id this)).

(** *** Failure of a refresh between CREATE and the exchange *)

Lemma last_issue s w : last (issued (issue s w)) = Some s.
Proof. simpl. apply last_snoc. Qed.

(** The stamp moves only when nothing is thrown. *)
Lemma refresh_throws_keeps_stamp this w e this' w' :
  refresh this w = (Some e, this', w') ->
  last_refresh_time this' = last_refresh_time this.
Proof.
  unfold refresh, refresh_try.
  repeat match goal with
  | |- context [match ?x with _ => _ end] => destruct x eqn:?; simpl
  end; intros [= <- <- <-]; reflexivity.
Qed.


End Refresh.

(** A view [db.v] over its inner table, whose INSERT fails. *)
Definition sample_view : StorageMaterializedView :=
  mkView (mkStorageID "db" "v" Nil) (mkStorageID "db" ".inner.v" 7%N) true
         (fun _ => [3]) 42.

Definition sample_world : World :=
  mkWorld {[ ("db"%string, ".inner.v"%string) := mkTable 7%N "CREATE"%string [1; 2] ]}
          100 8%N []
          (fun s => match s with InsertSelect _ _ => Some "boom"%string | _ => None end).



(** *** The other ways through [refresh] *)

Section RefreshOutcomes.

Variable toString : UUID -> string.

(** The statements of a [refresh] in which nothing throws. *)
Definition refresh_statements (this : StorageMaterializedView) : list Statement :=
  let db := database_name (target_table_id this) in
  let target := table_name (target_table_id this) in
  let tmp := table_to_replace_name toString this in
  let elem := mkElement (db, tmp) (db, target) in
  [GetCreateTableQuery db target; Create db tmp Nil; InsertSelect db tmp;
   Rename [elem; moved_from elem] true; GetTable db target; Drop db tmp].

(** The table the INSERT fills: created with the definition of the target [t]
    and the next identity of the engine, it holds the rows of the saved SELECT
    on the catalog in which it is still empty. *)
Definition refreshed_table (this : StorageMaterializedView) (w : World) (t : Table)
    : Table :=
  let db := database_name (target_table_id this) in
  let tmp := table_to_replace_name toString this in
  mkTable (next_uuid w) (definition t)
          (select_query this
             (<[(db, tmp) := mkTable (next_uuid w) (definition t) []]> (catalog w))).

Definition is_Drop (s : Statement) : bool :=
  match s with Drop _ _ => true | _ => false end.

(** The catalog once the temporary table has taken the place of the target. *)
Lemma exchanged_catalog (c : Catalog) (k_tmp k_target : string * string)
    (empty_table new old : Table) :
  k_tmp <> k_target ->
  c !! k_tmp = None ->
  delete k_tmp (<[k_tmp := old]> (<[k_target := new]> (<[k_tmp := empty_table]> c)))
  = <[k_target := new]> c.
Proof.
  intros Hne Hnone. apply map_eq. intros k.
  destruct (decide (k = k_tmp)) as [->|Hk].
  - by rewrite lookup_delete_eq, lookup_insert_ne.
  - rewrite lookup_delete_ne, lookup_insert_ne by done.
    destruct (decide (k = k_target)) as [->|Hk'].
    + by rewrite !lookup_insert_eq.
    + by rewrite !lookup_insert_ne.
Qed.

(** X15: when the target table exists, no table has the temporary name and
    none of the six statements throws, [refresh] throws nothing and issues
    exactly those statements in order; the catalog is the one before with,
    under the name of the target, the table that was created and filled; the
    temporary name is free again; [target_table_id] keeps its database and
    name and has the identity of the new table, and [last_refresh_time] is
    the time of the clock. *)
Theorem refresh_succeeds (this : StorageMaterializedView) (w : World) (t : Table) :
  let db := database_name (target_table_id this) in
  let target := table_name (target_table_id this) in
  let tmp := table_to_replace_name toString this in
  Forall (fun s => fails w s = None) (refresh_statements this) ->
  catalog w !! (db, target) = Some t ->
  catalog w !! (db, tmp) = None ->
  let '(r, this', w') := refresh toString this w in
  r = None
  /\ issued w' = issued w ++ refresh_statements this
  /\ catalog w' = <[(db, target) := refreshed_table this w t]> (catalog w)
  /\ catalog w' !! (db, tmp) = None
  /\ getTargetTable this' w' = Some (refreshed_table this w t)
  /\ target_table_id this' = mkStorageID db target (next_uuid w)
  /\ last_refresh_time this' = now w.
Proof.
  intros db target tmp Hfails Htarget Htmp.
  assert (tmp <> target) as Hne by (intros Heq; rewrite Heq in Htmp; congruence).
  assert ((db, tmp) <> (db, target)) as Hne' by congruence.
  unfold refresh_statements in Hfails. fold db target tmp in Hfails.
  apply Forall_cons in Hfails as [Hget Hfails].
  apply Forall_cons in Hfails as [Hcreate Hfails].
  apply Forall_cons in Hfails as [Hinsert Hfails].
  apply Forall_cons in Hfails as [Hrename Hfails].
  apply Forall_cons in Hfails as [Hgettable Hfails].
  apply Forall_cons in Hfails as [Hdrop _].
  unfold refresh, refresh_try, getTargetTable, refreshed_table, refresh_statements.
  fold db target tmp.
  unfold getCreateTableQuery. rewrite Hget, Htarget.
  unfold executeCreate. simpl. rewrite Hcreate, Htmp.
  unfold executeInsert. simpl. rewrite Hinsert, lookup_insert_eq. simpl.
  unfold executeRename. simpl. rewrite Hrename. simpl.
  rewrite insert_insert_eq, lookup_insert_eq, lookup_insert_ne, Htarget by done.
  unfold getTable. simpl. rewrite Hgettable.
  rewrite lookup_insert_ne, lookup_insert_eq by done. simpl.
  unfold executeDrop. simpl. rewrite Hdrop, lookup_insert_eq. simpl.
  rewrite exchanged_catalog by done.
  rewrite <- !app_assoc. simpl.
  repeat split; try done.
  - by rewrite lookup_insert_ne.
  - by rewrite lookup_insert_eq.
Qed.

(** X16: when the statement of the target cannot be fetched or the CREATE of
    the temporary table throws (also because a table of that name is still
    there), [refresh] throws, issues no DROP, and leaves the catalog and the
    view as they were. *)
Theorem refresh_create_fails (this : StorageMaterializedView) (w : World) :
  let db := database_name (target_table_id this) in
  let target := table_name (target_table_id this) in
  let tmp := table_to_replace_name toString this in
  is_Some (fails w (GetCreateTableQuery db target))
  \/ catalog w !! (db, target) = None
  \/ is_Some (fails w (Create db tmp Nil))
  \/ is_Some (catalog w !! (db, tmp)) ->
  let '(r, this', w') := refresh toString this w in
  is_Some r
  /\ this' = this
  /\ catalog w' = catalog w
  /\ exists l, issued w' = issued w ++ l /\ forallb (fun s => negb (is_Drop s)) l = true.
Proof.
  intros db target tmp Hfail.
  unfold refresh, refresh_try. fold db target tmp.
  unfold getCreateTableQuery.
  destruct (fails w (GetCreateTableQuery db target)) as [e|] eqn:Hget; simpl.
  { repeat split; eauto; try (rewrite <- ?app_assoc; by eexists). }
  destruct (catalog w !! (db, target)) as [t|] eqn:Htarget; simpl;
    [|repeat split; eauto; try (rewrite <- ?app_assoc; by eexists)].
  unfold executeCreate. simpl.
  destruct (fails w (Create db tmp Nil)) as [e|] eqn:Hcreate; simpl.
  { repeat split; eauto; try (rewrite <- ?app_assoc; by eexists). }
  destruct (catalog w !! (db, tmp)) as [t'|] eqn:Htmp; simpl.
  { repeat split; eauto; try (rewrite <- ?app_assoc; by eexists). }
  destruct Hfail as [[? [=]]|[[=]|[[? [=]]|[? [=]]]]].
Qed.


(** X18: whatever throws, [refresh] keeps the identity of the view and the
    database and the name of [target_table_id], only adds to the statements
    issued, issues at most one DROP, and every DROP it issues is of the
    temporary name in the database of the target. *)
Theorem refresh_drops_temporary_only (this : StorageMaterializedView) (w : World) :
  let db := database_name (target_table_id this) in
  let target := table_name (target_table_id this) in
  let tmp := table_to_replace_name toString this in
  let '(r, this', w') := refresh toString this w in
  getStorageID this' = getStorageID this
  /\ database_name (target_table_id this') = db
  /\ table_name (target_table_id this') = target
  /\ exists l, issued w' = issued w ++ l
               /\ (length (filter (fun s => Is_true (is_Drop s)) l) <= 1)%nat
               /\ Forall (fun s => is_Drop s = true -> s = Drop db tmp) l.
Proof.
  intros db target tmp.
  unfold refresh, refresh_try. fold db target tmp.
  unfold getCreateTableQuery, executeCreate, executeInsert, executeRename, getTable,
    executeDrop.
  repeat match goal with
  | |- context [match fails ?w0 ?s with _ => _ end] =>
      destruct (fails w0 s) eqn:?; simpl
  | |- context [match ?m !! ?k with _ => _ end] =>
      destruct (m !! k) eqn:?; simpl
  end;
  (repeat split; try done);
  (eexists; split; [rewrite <- ?app_assoc; reflexivity|]);
  (split; [simpl; lia|]);
  repeat (apply Forall_cons; split; [by simpl|]); by apply Forall_nil.
Qed.

End RefreshOutcomes.

Lemma refresh_succeeds_witness :
  let w := mkWorld (catalog sample_world) 100 8%N [] (fun _ => None) in
  let '(r, this', w') := refresh (fun _ => ""%string) sample_view w in
  r = None
  /\ issued w' = issued w ++ refresh_statements (fun _ => ""%string) sample_view
  /\ catalog w' = <[("db"%string, ".inner.v"%string)
                    := refreshed_table (fun _ => ""%string) sample_view w
                         (mkTable 7%N "CREATE"%string [1; 2])]> (catalog w)
  /\ catalog w' !! ("db"%string, ".tmp.inner.v"%string) = None
  /\ getTargetTable this' w' = Some (refreshed_table (fun _ => ""%string) sample_view w
                                       (mkTable 7%N "CREATE"%string [1; 2]))
  /\ target_table_id this' = mkStorageID "db" ".inner.v" 8%N
  /\ last_refresh_time this' = 100.
Proof.
  apply (refresh_succeeds (fun _ => ""%string) sample_view
           (mkWorld (catalog sample_world) 100 8%N [] (fun _ => None))
           (mkTable 7%N "CREATE"%string [1; 2])).
  - repeat constructor.
  - vm_compute. reflexivity.
  - vm_compute. reflexivity.
Defined.

Lemma refresh_create_fails_witness :
  let w := mkWorld (<[("db"%string, ".tmp.inner.v"%string) := mkTable 5%N "CREATE"%string []]>
                      (catalog sample_world)) 100 8%N [] (fun _ => None) in
  let '(r, this', w') := refresh (fun _ => ""%string) sample_view w in
  is_Some r
  /\ this' = sample_view
  /\ catalog w' = catalog w
  /\ exists l, issued w' = issued w ++ l /\ forallb (fun s => negb (is_Drop s)) l = true.
Proof.
  apply (refresh_create_fails (fun _ => ""%string) sample_view
           (mkWorld (<[("db"%string, ".tmp.inner.v"%string)
                       := mkTable 5%N "CREATE"%string []]> (catalog sample_world))
                    100 8%N [] (fun _ => None))).
  right. right. right. vm_compute. eauto.
Defined.



(** *** ALTER of a view *)

Section Alter.

(** [AlterCommand], of [Storages/AlterCommands.h], by what
    [checkAlterIsPossible] asks of it: [isCommentAlter()] and whether its
    [type] is [MODIFY_QUERY]. *)
Variable AlterCommand : Type.
Variable isCommentAlter : AlterCommand -> bool.
Variable is_MODIFY_QUERY : AlterCommand -> bool.

(** [checkAlterIsPossible], on the setting
    [allow_experimental_alter_materialized_view_structure]: the command
    whose type the exception names, [None] when nothing is thrown. *)
Fixpoint checkAlterIsPossible (allow_experimental_alter_materialized_view_structure : bool)
    (commands : list AlterCommand) : option AlterCommand :=
  match commands with
  | [] => None
  | command :: rest =>
      if allow_experimental_alter_materialized_view_structure then
        if negb (isCommentAlter command) && negb (is_MODIFY_QUERY command)
        then Some command
        else checkAlterIsPossible allow_experimental_alter_materialized_view_structure rest
      else
        if negb (isCommentAlter command) then Some command
        else checkAlterIsPossible allow_experimental_alter_materialized_view_structure rest
  end.

(** X23: a list of ALTER commands that is accepted without the experimental
    setting is accepted with it; and a command that is refused, with or
    without the setting, is one of the list that is not an ALTER of a
    comment, every command before it being accepted. *)
Theorem checkAlterIsPossible_setting_widens (commands : list AlterCommand) :
  (checkAlterIsPossible false commands = None ->
   checkAlterIsPossible true commands = None)
  /\ forall setting command,
       checkAlterIsPossible setting commands = Some command ->
       isCommentAlter command = false
       /\ exists before after,
            commands = before ++ command :: after
            /\ checkAlterIsPossible setting before = None.
Proof.
  induction commands as [|c rest [IHwiden IHrefused]]; simpl; [done|]. split.
  - destruct (isCommentAlter c); simpl; [done|]. done.
  - intros setting command.
    assert (checkAlterIsPossible setting rest = Some command ->
            (isCommentAlter c = true \/ setting && is_MODIFY_QUERY c = true) ->
            isCommentAlter command = false
            /\ exists before after,
                 c :: rest = before ++ command :: after
                 /\ checkAlterIsPossible setting before = None) as Hrest.
    { intros Hsome Hc. destruct (IHrefused _ _ Hsome) as (Hnot & before & after & -> & Hnone).
      split; [done|]. exists (c :: before), after. split; [done|]. simpl.
      destruct setting, (isCommentAlter c), (is_MODIFY_QUERY c); simpl in *;
        try done; by destruct Hc. }
    destruct setting, (isCommentAlter c) eqn:Hcomment, (is_MODIFY_QUERY c) eqn:Hmodify;
      simpl; try (intros Hsome; apply Hrest; [done | by (left + right)]);
      intros [= <-]; (split; [done|]); by exists [], rest.
Qed.

End Alter.

Lemma checkAlterIsPossible_setting_widens_witness :
  checkAlterIsPossible (bool * bool) fst snd true [(true, false); (true, true)] = None.
Proof.
  destruct (checkAlterIsPossible_setting_widens (bool * bool) fst snd
              [(true, false); (true, true)]) as [Hwiden _].
  apply Hwiden. reflexivity.
Defined.

End MaterializedView.

Module ExternalLoader.

Definition Exception := string.

(** [UInt64] values and arithmetic. *)
Definition UInt64 (z : Z) : Prop := 0 <= z < 2 ^ 64.
Definition wrap64 (z : Z) : Z := z `mod` 2 ^ 64.

(** [std::chrono::seconds] built from a [UInt64]: the count is a signed
    64-bit integer. *)
Definition seconds (z : Z) : Z := if z <? 2 ^ 63 then z else z - 2 ^ 64.

(** Signed 64-bit arithmetic, as the processor does it: the result wraps. *)
Definition wrap_int64 (z : Z) : Z := (z + 2 ^ 63) `mod` 2 ^ 64 - 2 ^ 63.

(** [TimePoint] is [std::chrono::system_clock::time_point]: a count of
    nanoseconds since the epoch in a signed 64-bit integer.  A count of
    seconds becomes a count of nanoseconds by the factor of the two periods. *)
Definition nanoseconds (secs : Z) : Z := wrap_int64 (secs * 1000000000).

(** [time_point + seconds], of [system_clock]: the seconds are converted to
    nanoseconds and added to the count of the time point. *)
Definition time_plus_seconds (t delay : Z) : Z := wrap_int64 (t + nanoseconds delay).

(** [static_cast<UInt64>(std::exp2(k))]: defined while the power fits. *)
Definition exp2_UInt64 (k : Z) : option Z :=
  if k <? 64 then Some (2 ^ k) else None.

Record ExternalLoadableLifetime := mkLifetime {
  min_sec : Z;
  max_sec : Z
}.

(** [IExternalLoadable], by what its methods return; [clone()] is taken as a
    parameter below. *)
Record IExternalLoadable := mkLoadable {
  getName : string;
  getLifetime : ExternalLoadableLifetime;
  supportUpdates : bool;
  isModified : bool;
  getCreationException : option Exception
}.

Inductive ConfigurationSourceType := Filesystem | DDL.

Record LoadableInfo := mkLoadableInfo {
  loadable : option IExternalLoadable;
  source_type : ConfigurationSourceType;
  origin : string;
  exception : option Exception
}.

Record FailedLoadableInfo := mkFailedLoadableInfo {
  failed_loadable : IExternalLoadable;
  next_attempt_time : Z;
  error_count : Z
}.

Record ExternalLoaderUpdateSettings := mkUpdateSettings {
  check_period_sec : Z;
  backoff_initial_sec : Z;
  backoff_max_sec : Z
}.

Abbreviation ObjectsMap := (gmap string LoadableInfo).

(** [rnd_engine] under [std::uniform_int_distribution<UInt64>], both of the
    standard library.  The engine is deterministic, so the value that a
    distribution over [a .. b] draws from it is decided by the bounds of the
    draws made on it before, oldest first, and by [a] and [b]; how many raw
    outputs a draw takes, and how it scales them, is the library's. *)
Definition Engine := list (Z * Z) -> Z -> Z -> Z.

(** What the standard asks of the distribution: for [a <= b], a value of
    [a .. b]. *)
Definition in_range (e : Engine) : Prop :=
  forall past a b, a <= b -> a <= e past a b <= b.

(** The members of [ExternalLoader], with the clock ([system_clock::now()],
    as its count of nanoseconds), the engine, and the keys of the entries
    whose object [clone()] was called on, in order. *)
Record State := mkState {
  object_name : string;
  update_settings : ExternalLoaderUpdateSettings;
  loadable_objects_from_filesystem : ObjectsMap;
  loadable_objects_from_databases : ObjectsMap;
  failed_loadable_objects : gmap string FailedLoadableInfo;
  update_times : gmap string Z;
  rnd_engine : Engine;
  now : Z;
  cloned : list string
}.

Definition set_filesystem (m : ObjectsMap) (st : State) : State :=
  mkState (object_name st) (update_settings st) m (loadable_objects_from_databases st)
          (failed_loadable_objects st) (update_times st) (rnd_engine st) (now st)
          (cloned st).

Definition set_databases (m : ObjectsMap) (st : State) : State :=
  mkState (object_name st) (update_settings st) (loadable_objects_from_filesystem st) m
          (failed_loadable_objects st) (update_times st) (rnd_engine st) (now st)
          (cloned st).

Definition set_failed (m : gmap string FailedLoadableInfo) (st : State) : State :=
  mkState (object_name st) (update_settings st) (loadable_objects_from_filesystem st)
          (loadable_objects_from_databases st) m (update_times st) (rnd_engine st)
          (now st) (cloned st).

Definition set_update_times (m : gmap string Z) (st : State) : State :=
  mkState (object_name st) (update_settings st) (loadable_objects_from_filesystem st)
          (loadable_objects_from_databases st) (failed_loadable_objects st) m
          (rnd_engine st) (now st) (cloned st).

Definition set_rnd_engine (r : Engine) (st : State) : State :=
  mkState (object_name st) (update_settings st) (loadable_objects_from_filesystem st)
          (loadable_objects_from_databases st) (failed_loadable_objects st)
          (update_times st) r (now st) (cloned st).

(** The clock moves on. *)
Definition at_time (t : Z) (st : State) : State :=
  mkState (object_name st) (update_settings st) (loadable_objects_from_filesystem st)
          (loadable_objects_from_databases st) (failed_loadable_objects st)
          (update_times st) (rnd_engine st) t (cloned st).

Definition log_clone (name : string) (st : State) : State :=
  mkState (object_name st) (update_settings st) (loadable_objects_from_filesystem st)
          (loadable_objects_from_databases st) (failed_loadable_objects st)
          (update_times st) (rnd_engine st) (now st) (cloned st ++ [name]).

(** How a piece of code is left: normally, by an exception (the state is
    what it was when the exception left), or in undefined behaviour. *)
Inductive Flow (A : Type) :=
| Normal (a : A)
| Thrown (e : Exception) (st : State)
| UndefinedBehaviour.
Arguments Normal {A} a.
Arguments Thrown {A} e st.
Arguments UndefinedBehaviour {A}.

(** [std::uniform_int_distribution<UInt64>(a, b)(rnd_engine)]: the value
    drawn, and the engine with this draw behind it. *)
Definition uniform_int_distribution (a b : Z) (st : State) : Z * State :=
  (rnd_engine st [] a b,
   set_rnd_engine (fun past => rnd_engine st ((a, b) :: past)) st).

Definition getNextUpdateTime (l : IExternalLoadable) (st : State) : Z * State :=
  let lifetime := getLifetime l in
  if max_sec lifetime <? min_sec lifetime then (0, st)
  else
    let '(u, st) := uniform_int_distribution (min_sec lifetime) (max_sec lifetime) st in
    (time_plus_seconds (now st) (seconds u), st).

(** [update_times[name]] of a [std::unordered_map]: a missing key is
    inserted with the epoch. *)
Definition update_times_at (name : string) (st : State) : Z * State :=
  match update_times st !! name with
  | Some t => (t, st)
  | None => (0, set_update_times (<[name := 0]> (update_times st)) st)
  end.

Definition checkLoadableObjectToUpdate (object : LoadableInfo) (st : State)
    : bool * State :=
  match loadable object with
  | None => (false, st)
  | Some current =>
      let lifetime := getLifetime current in
      if (min_sec lifetime =? 0) || (max_sec lifetime =? 0) then (false, st)
      else if negb (supportUpdates current) then (false, st)
      else
        let '(update_time, st) := update_times_at (getName current) st in
        if now st <? update_time then (false, st)
        else if negb (isModified current) then (false, st)
        else (true, st)
  end.

Definition addObjectFromDatabase (database_name object_name : string)
    (loadable_object : IExternalLoadable) (st : State) : Flow State :=
  let name := database_name +:+ "." +:+ object_name in
  match loadable_objects_from_databases st !! name with
  | Some _ => Thrown ("Can't add loadable object. " +:+ name +:+ " already exists.") st
  | None =>
      let info := mkLoadableInfo (Some loadable_object) DDL name None in
      let st := set_databases (<[name := info]> (loadable_objects_from_databases st)) st in
      let '(t, st) := getNextUpdateTime loadable_object st in
      Normal (set_update_times (<[name := t]> (update_times st)) st)
  end.

Definition removeObject (database_name object_name : string) (st : State)
    : Flow State :=
  let name := database_name +:+ "." +:+ object_name in
  match loadable_objects_from_databases st !! name with
  | None => Thrown ("Can't remove object. " +:+ name +:+ " is missing.") st
  | Some _ => Normal (set_databases (delete name (loadable_objects_from_databases st)) st)
  end.

(** Which of the two maps [updateObjects] is given. *)
Inductive ObjectsMapRef := FromFilesystem | FromDatabases.

Definition get_map (which : ObjectsMapRef) (st : State) : ObjectsMap :=
  match which with
  | FromFilesystem => loadable_objects_from_filesystem st
  | FromDatabases => loadable_objects_from_databases st
  end.

Definition set_map (which : ObjectsMapRef) (m : ObjectsMap) (st : State) : State :=
  match which with
  | FromFilesystem => set_filesystem m st
  | FromDatabases => set_databases m st
  end.

(** The first loop of [updateObjects]: the objects to update. *)
Fixpoint collect_objects_to_update (entries : list (string * LoadableInfo))
    (st : State) : list (string * IExternalLoadable) * State :=
  match entries with
  | [] => ([], st)
  | (name, object) :: rest =>
      let '(b, st) := checkLoadableObjectToUpdate object st in
      let '(objs, st) := collect_objects_to_update rest st in
      match b, loadable object with
      | true, Some current => ((name, current) :: objs, st)
      | _, _ => (objs, st)
      end
  end.


Section WithClone.

(** [IExternalLoadable::clone()]: throws, or returns the new version. *)
Variable clone : IExternalLoadable -> Exception + IExternalLoadable.

(** The second loop of [updateObjects]. *)
Fixpoint update_loop (which : ObjectsMapRef) (throw_on_error : bool)
    (objs : list (string * IExternalLoadable)) (st : State) : Flow State :=
  match objs with
  | [] => Normal st
  | (name, current) :: rest =>
      let st := log_clone name st in
      let '(new_version, exc) :=
        match clone current with
        | inr new_version => (Some new_version, getCreationException new_version)
        | inl e => (None, Some e)
        end in
      match get_map which st !! name with
      | None => update_loop which throw_on_error rest st
      | Some it =>
          let '(t, st) := getNextUpdateTime current st in
          let st := set_update_times (<[name := t]> (update_times st)) st in
          match exc with
          | None =>
              let st := set_map which
                          (<[name := mkLoadableInfo new_version (source_type it)
                                                    (origin it) None]>
                             (get_map which st)) st in
              update_loop which throw_on_error rest st
          | Some e =>
              let st := set_map which
                          (<[name := mkLoadableInfo (loadable it) (source_type it)
                                                    (origin it) (Some e)]>
                             (get_map which st)) st in
              if throw_on_error then Thrown e st
              else update_loop which throw_on_error rest st
          end
      end
  end.

Definition updateObjects (which : ObjectsMapRef) (throw_on_error : bool)
    (st : State) : Flow State :=
  let '(objs, st) := collect_objects_to_update (map_to_list (get_map which st)) st in
  update_loop which throw_on_error objs st.

Definition updateAll (throw_on_error : bool) (st : State) : Flow State :=
  match updateObjects FromFilesystem throw_on_error st with
  | Normal st => updateObjects FromDatabases throw_on_error st
  | other => other
  end.

(** One turn of the retry loop of [reloadAndUpdate], on an entry of
    [failed_loadable_objects]; [recreated] is the loop's list of recreated
    objects. *)
Definition retry_failed (throw_on_error : bool) (name : string)
    (object_info : FailedLoadableInfo) (st : State) (recreated : list string)
    : Flow (State * list string) :=
  if now st <? next_attempt_time object_info then Normal (st, recreated)
  else
    let st := log_clone name st in
    match clone (failed_loadable object_info) with
    | inl e => if throw_on_error then Thrown e st else Normal (st, recreated)
    | inr loadable_ptr =>
        match getCreationException loadable_ptr with
        | Some exception_ptr =>
            match exp2_UInt64 (error_count object_info) with
            | None => UndefinedBehaviour
            | Some bound =>
                let '(u, st) := uniform_int_distribution 0 bound st in
                let delay :=
                  seconds (Z.min (backoff_max_sec (update_settings st))
                                 (wrap64 (backoff_initial_sec (update_settings st) + u))) in
                let st :=
                  set_failed
                    (<[name := mkFailedLoadableInfo
                                 (failed_loadable object_info)
                                 (time_plus_seconds (now st) delay)
                                 (wrap64 (error_count object_info + 1))]>
                       (failed_loadable_objects st)) st in
                if throw_on_error then Thrown exception_ptr st
                else Normal (st, recreated)
            end
        | None =>
            let '(t, st) := getNextUpdateTime loadable_ptr st in
            let st := set_update_times (<[name := t]> (update_times st)) st in
            match loadable_objects_from_filesystem st !! name with
            | None => UndefinedBehaviour
            | Some dict =>
                let st :=
                  set_filesystem
                    (<[name := mkLoadableInfo (Some loadable_ptr) (source_type dict)
                                              (origin dict) None]>
                       (loadable_objects_from_filesystem st)) st in
                Normal (st, recreated ++ [name])
            end
        end
    end.

Fixpoint retry_loop (throw_on_error : bool)
    (entries : list (string * FailedLoadableInfo)) (st : State)
    (recreated : list string) : Flow (State * list string) :=
  match entries with
  | [] => Normal (st, recreated)
  | (name, object_info) :: rest =>
      match retry_failed throw_on_error name object_info st recreated with
      | Normal (st, recreated) => retry_loop throw_on_error rest st recreated
      | other => other
      end
  end.

(** The part of [reloadAndUpdate] on the failed objects: the retry loop and
    the removal of the recreated objects. *)
Definition retry_failed_objects (throw_on_error : bool) (st : State) : Flow State :=
  match retry_loop throw_on_error (map_to_list (failed_loadable_objects st)) st [] with
  | Normal (st, recreated) =>
      Normal (set_failed
                (foldr (fun name m => delete name m) (failed_loadable_objects st) recreated)
                st)
  | Thrown e st => Thrown e st
  | UndefinedBehaviour => UndefinedBehaviour
  end.

(** [reloadFromConfigFiles]: the scan of the configuration files, through
    the configuration repository and [create], both outside the sources. *)
Variable reloadFromConfigFiles : bool -> State -> Flow State.

Definition reloadAndUpdate (throw_on_error : bool) (st : State) : Flow State :=
  match reloadFromConfigFiles throw_on_error st with
  | Normal st =>
      match retry_failed_objects throw_on_error st with
      | Normal st => updateAll throw_on_error st
      | other => other
      end
  | other => other
  end.

End WithClone.

(** *** The accessors *)

Inductive Result (A : Type) :=
| Returns (a : A)
| Throws (e : Exception).
Arguments Returns {A} a.
Arguments Throws {A} e.

Definition getLoadableImpl (name : string) (throw_on_error : bool) (st : State)
    : Result (option IExternalLoadable) :=
  match loadable_objects_from_filesystem st !! name with
  | None =>
      if throw_on_error then Throws ("No such " +:+ object_name st +:+ ": " +:+ name)
      else Returns None
  | Some it =>
      match loadable it, throw_on_error with
      | None, true =>
          match exception it with
          | Some e => Throws e
          | None => Throws (object_name st +:+ " '" +:+ name +:+ "' is not loaded")
          end
      | _, _ => Returns (loadable it)
      end
  end.

Definition getLoadableFromDatabasesImpl (name : string) (throw_on_error : bool)
    (st : State) : Result (option IExternalLoadable) :=
  match loadable_objects_from_databases st !! name with
  | None =>
      if throw_on_error then Throws ("No such " +:+ object_name st +:+ ": " +:+ name)
      else Returns None
  | Some it =>
      match loadable it, throw_on_error with
      | None, true =>
          match exception it with
          | Some e => Throws e
          | None => Throws (object_name st +:+ " '" +:+ name +:+ "' is not loaded")
          end
      | _, _ => Returns (loadable it)
      end
  end.

Definition empty (s : string) : bool := bool_decide (s = ""%string).

(** [getLoadable(name)]. *)
Definition getLoadable (name : string) (st : State) :=
  getLoadableImpl name true st.

(** [getLoadable(database_name, name)]. *)
Definition getLoadable_db (database_name name : string) (st : State) :=
  if empty database_name || empty name then Returns None
  else getLoadableFromDatabasesImpl (database_name +:+ "." +:+ name) false st.

(** [tryGetLoadable(name)]. *)
Definition tryGetLoadable (name : string) (st : State) :=
  getLoadableImpl name false st.

(** [tryGetLoadable(database_name, name)]. *)
Definition tryGetLoadable_db (database_name name : string) (st : State) :=
  if empty database_name || empty name then Returns None
  else getLoadableFromDatabasesImpl (database_name +:+ "." +:+ name) false st.

(** *** The claims on the accessors and on the update phase, as the
    specification words them *)

(** The name is unknown, or its entry holds a stored exception. *)
Definition unknown_or_failed (m : ObjectsMap) (name : string) : Prop :=
  m !! name = None \/ exists it e, m !! name = Some it /\ exception it = Some e.

Definition accessors_claim (st : State) : Prop :=
  (forall name,
     unknown_or_failed (loadable_objects_from_filesystem st) name ->
     (exists e, getLoadable name st = Throws e)
     /\ tryGetLoadable name st = Returns None)
  /\ (forall database_name name,
        unknown_or_failed (loadable_objects_from_databases st)
                          (database_name +:+ "." +:+ name) ->
        (exists e, getLoadable_db database_name name st = Throws e)
        /\ tryGetLoadable_db database_name name st = Returns None).

(** The update time scheduled for an object: [update_times[getName()]]. *)
Definition scheduled (st : State) (l : IExternalLoadable) : Z :=
  default 0 (update_times st !! getName l).



(** What [checkLoadableObjectToUpdate] tests on the object of an entry. *)
Definition due (st : State) (l : IExternalLoadable) : bool :=
  negb (min_sec (getLifetime l) =? 0) && negb (max_sec (getLifetime l) =? 0)
  && supportUpdates l && (scheduled st l <=? now st) && isModified l.

Definition same_schedule (st st' : State) : Prop :=
  now st' = now st /\ cloned st' = cloned st
  /\ forall k, default 0 (update_times st' !! k) = default 0 (update_times st !! k).





(** An engine under which every draw gives the lower bound. *)
Definition lowest : Engine := fun _ a _ => a.

(** A state with one failed object, due for a retry. *)
Definition failed_state (backoff_initial backoff_max : Z) : State :=
  mkState "dictionary" (mkUpdateSettings 5 backoff_initial backoff_max)
          {[ "d"%string := mkLoadableInfo None Filesystem "f.xml" (Some "bad"%string) ]}
          ∅ {[ "d"%string := mkFailedLoadableInfo (mkLoadable "d" (mkLifetime 1 1) true true
                                                              (Some "bad"%string)) 50 0 ]}
          ∅ lowest 100 [].

(** Sample objects and states. *)
Definition dict (name : string) (lo hi : Z) : IExternalLoadable :=
  mkLoadable name (mkLifetime lo hi) true true None.

Definition fresh_state : State :=
  mkState "dictionary" (mkUpdateSettings 5 5 600)
          {[ "d"%string := mkLoadableInfo (Some (dict "d" 1 1)) Filesystem "f.xml" None ]}
          ∅ ∅ ∅ lowest 100 [].

(** [fresh_state] after an update in which [clone()] threw: the old version
    is kept, next to the stored exception. *)
Definition stale_state : State :=
  mkState "dictionary" (mkUpdateSettings 5 5 600)
          {[ "d"%string := mkLoadableInfo (Some (dict "d" 1 1)) Filesystem "f.xml"
                                          (Some "boom"%string) ]}
          ∅ ∅ {[ "d"%string := 1000000100 ]} lowest 100 ["d"%string].

Definition empty_state : State :=
  mkState "dictionary" (mkUpdateSettings 5 5 600) ∅ ∅ ∅ ∅ lowest 100 [].

(** *** Properties of the accessors *)

Lemma stale_state_reached :
  updateObjects (fun _ => inl "boom"%string) FromFilesystem false fresh_state
  = Normal stale_state.
Proof. vm_compute. reflexivity. Qed.

(** C4, as stated, fails: an entry that keeps its old version next to a
    stored exception is returned by [getLoadable] and by [tryGetLoadable]. *)
Lemma stored_exception_counterexample :
  unknown_or_failed (loadable_objects_from_filesystem stale_state) "d"
  /\ getLoadable "d" stale_state = Returns (Some (dict "d" 1 1))
  /\ tryGetLoadable "d" stale_state = Returns (Some (dict "d" 1 1))
  /\ ~ accessors_claim stale_state.
Proof.
  assert (unknown_or_failed (loadable_objects_from_filesystem stale_state) "d") as Hbad.
  { right. eexists _, _. split; [vm_compute; reflexivity | reflexivity]. }
  split; [exact Hbad|]. split; [vm_compute; reflexivity|].
  split; [vm_compute; reflexivity|].
  intros [Hclaim _]. destruct (Hclaim "d"%string Hbad) as [_ Htry].
  vm_compute in Htry. discriminate Htry.
Qed.

(** C4, amended: [getLoadable(name)] throws when the name is unknown and when
    its entry holds no object (the stored exception, when there is one);
    [tryGetLoadable(name)] returns empty in these two cases; both return the
    object of an entry that holds one, whether or not an exception is stored
    next to it; [tryGetLoadable(database, name)] never throws and returns the
    object of the entry ["database.name"], if any. *)
Theorem accessors_by_loadable (st : State) :
  (forall name,
     match loadable_objects_from_filesystem st !! name with
     | None =>
         (exists e, getLoadable name st = Throws e)
         /\ tryGetLoadable name st = Returns None
     | Some it =>
         match loadable it with
         | None =>
             getLoadable name st
             = Throws (default (object_name st +:+ " '" +:+ name +:+ "' is not loaded")
                               (exception it))
             /\ tryGetLoadable name st = Returns None
         | Some l =>
             getLoadable name st = Returns (Some l)
             /\ tryGetLoadable name st = Returns (Some l)
         end
     end)
  /\ (forall database_name name,
        tryGetLoadable_db database_name name st
        = Returns (if empty database_name || empty name then None
                   else loadable_objects_from_databases st
                          !! (database_name +:+ "." +:+ name) ≫= loadable)).
Proof.
  split.
  - intros name. unfold getLoadable, tryGetLoadable, getLoadableImpl.
    destruct (loadable_objects_from_filesystem st !! name) as [it|]; [|eauto].
    destruct (loadable it) as [l|]; [done|].
    by destruct (exception it).
  - intros database_name name.
    unfold tryGetLoadable_db, getLoadableFromDatabasesImpl.
    destruct (empty database_name || empty name); [done|].
    destruct (loadable_objects_from_databases st !! _) as [it|]; [|done].
    simpl. by destruct (loadable it).
Qed.

(** The two-argument [getLoadable] hands [false] to
    [getLoadableFromDatabasesImpl], as [tryGetLoadable] does: an unknown name
    is answered with the empty pointer. *)
Lemma getLoadable_db_unknown :
  getLoadable_db "db" "x" empty_state = Returns None.
Proof. vm_compute. reflexivity. Qed.

(** *** The update phase *)

Lemma same_schedule_refl st : same_schedule st st.
Proof. done. Qed.

Lemma same_schedule_trans st1 st2 st3 :
  same_schedule st1 st2 -> same_schedule st2 st3 -> same_schedule st1 st3.
Proof.
  intros (Hn & Hc & Hu) (Hn' & Hc' & Hu'). repeat split; [congruence..|].
  intros k. by rewrite Hu', Hu.
Qed.

Lemma due_same_schedule st st' l : same_schedule st st' -> due st' l = due st l.
Proof. intros (Hn & _ & Hu). unfold due, scheduled. by rewrite Hn, Hu. Qed.

Lemma update_times_at_spec name st :
  (update_times_at name st).1 = default 0 (update_times st !! name)
  /\ same_schedule st (update_times_at name st).2.
Proof.
  unfold update_times_at.
  destruct (update_times st !! name) as [t|] eqn:Hlook; simpl; [done|].
  split; [done|]. repeat split; simpl. intros k.
  destruct (decide (name = k)) as [<-|Hne].
  - by rewrite lookup_insert_eq, Hlook.
  - by rewrite lookup_insert_ne.
Qed.

Lemma checkLoadableObjectToUpdate_spec object st :
  (checkLoadableObjectToUpdate object st).1
  = match loadable object with Some l => due st l | None => false end
  /\ same_schedule st (checkLoadableObjectToUpdate object st).2.
Proof.
  unfold checkLoadableObjectToUpdate, due.
  destruct (loadable object) as [l|]; [|done].
  destruct (min_sec (getLifetime l) =? 0); [done|].
  destruct (max_sec (getLifetime l) =? 0); [done|].
  destruct (supportUpdates l); [|done]. simpl.
  pose proof (update_times_at_spec (getName l) st) as [Hval Hsame].
  destruct (update_times_at (getName l) st) as [update_time st'].
  simpl in Hval, Hsame. destruct Hsame as (Hnow & Hcl & Hut).
  unfold scheduled. rewrite <- Hval, Hnow.
  rewrite (Z.leb_antisym (now st) update_time).
  destruct (now st <? update_time); simpl; [done|].
  by destruct (isModified l).
Qed.

Definition select_due (st : State) (entry : string * LoadableInfo)
    : option (string * IExternalLoadable) :=
  l ← loadable entry.2; if due st l then Some (entry.1, l) else None.

Lemma collect_objects_to_update_spec entries : forall st,
  (collect_objects_to_update entries st).1 = omap (select_due st) entries
  /\ same_schedule st (collect_objects_to_update entries st).2.
Proof.
  induction entries as [|[name object] rest IH]; intros st; simpl; [done|].
  pose proof (checkLoadableObjectToUpdate_spec object st) as [Hb Hsame].
  destruct (checkLoadableObjectToUpdate object st) as [b st1]. simpl in Hb, Hsame.
  destruct (IH st1) as [Hobjs Hsame1].
  destruct (collect_objects_to_update rest st1) as [objs st2]. simpl in Hobjs, Hsame1.
  assert (omap (select_due st1) rest = omap (select_due st) rest) as Hrest.
  { apply list_omap_ext, Forall_Forall2_diag, Forall_forall.
    intros [n o] _. unfold select_due.
    destruct (loadable (n, o).2) as [l|]; simpl; [|done].
    by rewrite (due_same_schedule st st1). }
  assert (same_schedule st st2) as Hall by (by eapply same_schedule_trans).
  rewrite Hrest in Hobjs. subst b objs.
  change (omap (select_due st) ((name, object) :: rest))
    with (match select_due st (name, object) with
          | Some y => y :: omap (select_due st) rest
          | None => omap (select_due st) rest
          end).
  assert (select_due st (name, object)
          = match loadable object with
            | Some l => if due st l then Some (name, l) else None
            | None => None
            end) as -> by (unfold select_due; simpl; by destruct (loadable object)).
  destruct (loadable object) as [l|]; [|done].
  by destruct (due st l).
Qed.




(** *** The retry of the failed objects *)


Lemma seconds_small z : z < 2 ^ 63 -> seconds z = z.
Proof. intros Hz. unfold seconds. by rewrite (proj2 (Z.ltb_lt _ _) Hz). Qed.

Lemma wrap_int64_small z : - 2 ^ 63 <= z < 2 ^ 63 -> wrap_int64 z = z.
Proof. intros Hz. unfold wrap_int64. rewrite Z.mod_small; lia. Qed.

(** While the sum fits the count of the clock, adding seconds to a time
    point adds that many nanoseconds. *)
Lemma time_plus_seconds_fits t delay :
  - 2 ^ 63 <= t + delay * 1000000000 < 2 ^ 63 ->
  time_plus_seconds t delay = t + delay * 1000000000.
Proof.
  intros Hfit. unfold time_plus_seconds, nanoseconds, wrap_int64.
  replace (t + ((delay * 1000000000 + 2 ^ 63) `mod` 2 ^ 64 - 2 ^ 63) + 2 ^ 63)
    with (t + (delay * 1000000000 + 2 ^ 63) `mod` 2 ^ 64) by lia.
  rewrite Zplus_mod_idemp_r.
  replace (t + (delay * 1000000000 + 2 ^ 63)) with (t + delay * 1000000000 + 2 ^ 63)
    by lia.
  rewrite Z.mod_small; lia.
Qed.

Lemma in_range_advance (e : Engine) a b :
  in_range e -> in_range (fun past => e ((a, b) :: past)).
Proof. intros Hrange past a' b'. apply Hrange. Qed.

Lemma getNextUpdateTime_in_range l st :
  in_range (rnd_engine st) -> in_range (rnd_engine (getNextUpdateTime l st).2).
Proof.
  intros Hrange. unfold getNextUpdateTime, uniform_int_distribution.
  destruct (max_sec (getLifetime l) <? min_sec (getLifetime l)); simpl; [done|].
  by apply in_range_advance.
Qed.





(** The scenario of the specification: three retries of an object whose
    clone reports a creation exception, the clock moving on by 100 seconds
    in between,
    count 1, 2 and 3 errors; a fourth, whose clone is sound, empties the
    failed set and [getLoadable] returns the object. *)
Example backoff_scenario :
  let failing := fun l : IExternalLoadable => inr l : Exception + IExternalLoadable in
  let sound := fun _ : IExternalLoadable =>
                 inr (dict "d" 1 1) : Exception + IExternalLoadable in
  exists st1 st2 st3 st4,
    retry_failed_objects failing false (failed_state 5 600) = Normal st1
    /\ retry_failed_objects failing false (at_time 200000000000 st1) = Normal st2
    /\ retry_failed_objects failing false (at_time 300000000000 st2) = Normal st3
    /\ retry_failed_objects sound false (at_time 400000000000 st3) = Normal st4
    /\ (error_count <$> failed_loadable_objects st1 !! "d"%string) = Some 1
    /\ (error_count <$> failed_loadable_objects st2 !! "d"%string) = Some 2
    /\ (error_count <$> failed_loadable_objects st3 !! "d"%string) = Some 3
    /\ failed_loadable_objects st4 !! "d"%string = None
    /\ getLoadable "d" st4 = Returns (Some (dict "d" 1 1)).
Proof.
  eexists _, _, _, _.
  split; [vm_compute; reflexivity|]. split; [vm_compute; reflexivity|].
  split; [vm_compute; reflexivity|]. split; [vm_compute; reflexivity|].
  repeat split; vm_compute; reflexivity.
Qed.




(** *** Scheduling, addition and removal *)

(** X5: on an engine whose distribution keeps to its range, for a lifetime
    with [0 <= min_sec <= max_sec] and a clock on whose count of nanoseconds
    now plus [max_sec] seconds fits, the next update time is now plus [u]
    seconds for the [u] of [min_sec .. max_sec] that the distribution draws,
    so it lies between [min_sec] and [max_sec] seconds from now; the state
    changes in the engine only, which has this draw behind it and still
    keeps to its range. *)
Theorem getNextUpdateTime_within_lifetime (l : IExternalLoadable) (st : State) :
  in_range (rnd_engine st) ->
  0 <= min_sec (getLifetime l) <= max_sec (getLifetime l) ->
  - 2 ^ 63 <= now st ->
  now st + max_sec (getLifetime l) * 1000000000 < 2 ^ 63 ->
  (exists u, min_sec (getLifetime l) <= u <= max_sec (getLifetime l)
             /\ (getNextUpdateTime l st).1 = now st + u * 1000000000)
  /\ now st + min_sec (getLifetime l) * 1000000000
     <= (getNextUpdateTime l st).1
     <= now st + max_sec (getLifetime l) * 1000000000
  /\ (getNextUpdateTime l st).2
     = set_rnd_engine
         (fun past => rnd_engine st ((min_sec (getLifetime l), max_sec (getLifetime l))
                                     :: past)) st
  /\ in_range (rnd_engine (getNextUpdateTime l st).2).
Proof.
  intros Hrange Hle Hnow Hfit.
  pose proof (getNextUpdateTime_in_range l st Hrange) as Hrange'.
  revert Hrange'. unfold getNextUpdateTime, uniform_int_distribution.
  rewrite (proj2 (Z.ltb_ge _ _) (proj2 Hle)). simpl. intros Hrange'.
  pose proof (Hrange [] _ _ (proj2 Hle)) as Hu.
  rewrite seconds_small by lia. rewrite time_plus_seconds_fits by lia.
  split; [eauto|]. split; [lia|]. split; [done | exact Hrange'].
Qed.

Lemma getNextUpdateTime_within_lifetime_witness :
  (exists u, 3 <= u <= 7
             /\ (getNextUpdateTime (dict "d" 3 7) empty_state).1 = 100 + u * 1000000000)
  /\ 100 + 3 * 1000000000 <= (getNextUpdateTime (dict "d" 3 7) empty_state).1
                          <= 100 + 7 * 1000000000
  /\ (getNextUpdateTime (dict "d" 3 7) empty_state).2
     = set_rnd_engine (fun past => rnd_engine empty_state ((3, 7) :: past)) empty_state
  /\ in_range (rnd_engine (getNextUpdateTime (dict "d" 3 7) empty_state).2).
Proof.
  apply (getNextUpdateTime_within_lifetime (dict "d" 3 7) empty_state).
  - intros past a b Hle. cbv [empty_state rnd_engine lowest]. lia.
  - simpl. lia.
  - simpl. lia.
  - simpl. lia.
Defined.

(** Beyond that the count of the clock wraps: with a lifetime of [2^63]
    seconds the next update time is now. *)
Example getNextUpdateTime_wraps :
  (getNextUpdateTime (dict "d" (2 ^ 63) (2 ^ 63)) empty_state).1 = now empty_state.
Proof. vm_compute. reflexivity. Qed.

(** X6: an object added through the catalog under a name that is free is
    returned by [tryGetLoadable(database, name)] and by the two-argument
    [getLoadable], with its update time scheduled under the full name; the
    map of the file objects is untouched; adding the same name again throws
    and changes nothing. *)
Theorem addObjectFromDatabase_then_get (database_name name : string)
    (l l' : IExternalLoadable) (st : State) :
  database_name <> ""%string -> name <> ""%string ->
  loadable_objects_from_databases st !! (database_name +:+ "." +:+ name) = None ->
  exists st',
    addObjectFromDatabase database_name name l st = Normal st'
    /\ tryGetLoadable_db database_name name st' = Returns (Some l)
    /\ getLoadable_db database_name name st' = Returns (Some l)
    /\ update_times st' !! (database_name +:+ "." +:+ name)
       = Some (getNextUpdateTime l st).1
    /\ loadable_objects_from_filesystem st' = loadable_objects_from_filesystem st
    /\ exists e, addObjectFromDatabase database_name name l' st' = Thrown e st'.
Proof.
  intros Hdb Hname Hfree. unfold addObjectFromDatabase. rewrite Hfree.
  unfold tryGetLoadable_db, getLoadable_db, getLoadableFromDatabasesImpl, empty.
  rewrite !bool_decide_eq_false_2 by done. simpl.
  unfold getNextUpdateTime, uniform_int_distribution.
  destruct (max_sec (getLifetime l) <? min_sec (getLifetime l)); simpl;
    eexists; (split; [reflexivity|]); simpl; rewrite !lookup_insert_eq; eauto 10.
Qed.

Lemma addObjectFromDatabase_then_get_witness :
  exists st',
    addObjectFromDatabase "db" "b" (dict "db.b" 3 7) empty_state = Normal st'
    /\ tryGetLoadable_db "db" "b" st' = Returns (Some (dict "db.b" 3 7))
    /\ getLoadable_db "db" "b" st' = Returns (Some (dict "db.b" 3 7))
    /\ update_times st' !! ("db" +:+ "." +:+ "b")
       = Some (getNextUpdateTime (dict "db.b" 3 7) empty_state).1
    /\ loadable_objects_from_filesystem st'
       = loadable_objects_from_filesystem empty_state
    /\ exists e, addObjectFromDatabase "db" "b" (dict "other" 1 1) st' = Thrown e st'.
Proof.
  apply (addObjectFromDatabase_then_get "db" "b" (dict "db.b" 3 7) (dict "other" 1 1)
           empty_state).
  - discriminate.
  - discriminate.
  - vm_compute. reflexivity.
Defined.

(** An object added under an empty database name is in the map and cannot
    be fetched: both accessors answer an empty name with the empty pointer. *)
Example added_with_empty_database :
  exists st',
    addObjectFromDatabase "" "b" (dict "b" 3 7) empty_state = Normal st'
    /\ is_Some (loadable_objects_from_databases st' !! ".b"%string)
    /\ tryGetLoadable_db "" "b" st' = Returns None.
Proof. eexists. split; [vm_compute; reflexivity|]. split; [vm_compute; eauto | done]. Qed.

(** X7: removing an object that was added under a free name gives back the
    map of the catalog objects as it was, while the update time scheduled
    for it stays recorded; removing a name that is not there throws and
    changes nothing. *)
Theorem removeObject_after_add (database_name name : string)
    (l : IExternalLoadable) (st : State) :
  loadable_objects_from_databases st !! (database_name +:+ "." +:+ name) = None ->
  (exists e, removeObject database_name name st = Thrown e st)
  /\ exists st' st'',
      addObjectFromDatabase database_name name l st = Normal st'
      /\ removeObject database_name name st' = Normal st''
      /\ loadable_objects_from_databases st'' = loadable_objects_from_databases st
      /\ update_times st'' !! (database_name +:+ "." +:+ name)
         = Some (getNextUpdateTime l st).1.
Proof.
  intros Hfree. unfold removeObject, addObjectFromDatabase. rewrite Hfree.
  split; [by eauto|].
  unfold getNextUpdateTime, uniform_int_distribution.
  destruct (max_sec (getLifetime l) <? min_sec (getLifetime l)); simpl;
    eexists _, _; (split; [reflexivity|]); simpl; rewrite !lookup_insert_eq;
    (split; [reflexivity|]); simpl;
    rewrite delete_insert_eq, lookup_insert_eq; (split; [by apply delete_id | done]).
Qed.

Lemma removeObject_after_add_witness :
  (exists e, removeObject "db" "b" empty_state = Thrown e empty_state)
  /\ exists st' st'',
      addObjectFromDatabase "db" "b" (dict "db.b" 3 7) empty_state = Normal st'
      /\ removeObject "db" "b" st' = Normal st''
      /\ loadable_objects_from_databases st''
         = loadable_objects_from_databases empty_state
      /\ update_times st'' !! ("db" +:+ "." +:+ "b")
         = Some (getNextUpdateTime (dict "db.b" 3 7) empty_state).1.
Proof.
  apply (removeObject_after_add "db" "b" (dict "db.b" 3 7) empty_state).
  vm_compute. reflexivity.
Defined.

(** *** What an update leaves in the map *)

(** The entry an update leaves for an object that was due. *)
Definition installed (clone : IExternalLoadable -> Exception + IExternalLoadable)
    (current : IExternalLoadable) (it : LoadableInfo) : LoadableInfo :=
  match clone current with
  | inr new_version =>
      match getCreationException new_version with
      | None => mkLoadableInfo (Some new_version) (source_type it) (origin it) None
      | Some e => mkLoadableInfo (loadable it) (source_type it) (origin it) (Some e)
      end
  | inl e => mkLoadableInfo (loadable it) (source_type it) (origin it) (Some e)
  end.

(** The entry an update phase leaves for an entry. *)
Definition updated (clone : IExternalLoadable -> Exception + IExternalLoadable)
    (st : State) (it : LoadableInfo) : LoadableInfo :=
  match loadable it with
  | Some l => if due st l then installed clone l it else it
  | None => it
  end.

Definition other_map (which : ObjectsMapRef) : ObjectsMapRef :=
  match which with FromFilesystem => FromDatabases | FromDatabases => FromFilesystem end.

Lemma checkLoadableObjectToUpdate_maps object st which :
  get_map which (checkLoadableObjectToUpdate object st).2 = get_map which st
  /\ failed_loadable_objects (checkLoadableObjectToUpdate object st).2
     = failed_loadable_objects st.
Proof.
  unfold checkLoadableObjectToUpdate, update_times_at.
  destruct (loadable object) as [l|]; [|done].
  destruct ((min_sec (getLifetime l) =? 0) || (max_sec (getLifetime l) =? 0)); [done|].
  destruct (negb (supportUpdates l)); [done|].
  destruct (update_times st !! getName l) as [u|]; simpl.
  - destruct (now st <? u); [done|]. by destruct (negb (isModified l)).
  - destruct (now st <? 0); [by destruct which|].
    destruct (negb (isModified l)); by destruct which.
Qed.

Lemma collect_objects_to_update_maps entries which : forall st,
  get_map which (collect_objects_to_update entries st).2 = get_map which st
  /\ failed_loadable_objects (collect_objects_to_update entries st).2
     = failed_loadable_objects st.
Proof.
  induction entries as [|[name object] rest IH]; intros st; simpl; [done|].
  pose proof (checkLoadableObjectToUpdate_maps object st which) as [Hm Hf].
  destruct (checkLoadableObjectToUpdate object st) as [b st1]. simpl in Hm, Hf.
  destruct (IH st1) as [Hm1 Hf1].
  destruct (collect_objects_to_update rest st1) as [objs st2]. simpl in Hm1, Hf1.
  destruct b, (loadable object); simpl; split; congruence.
Qed.

Lemma omap_select_due_sublist st entries :
  (omap (select_due st) entries).*1 `sublist_of` entries.*1.
Proof.
  induction entries as [|[name object] rest IH]; [done|].
  change (omap (select_due st) ((name, object) :: rest))
    with (match select_due st (name, object) with
          | Some y => y :: omap (select_due st) rest
          | None => omap (select_due st) rest
          end).
  unfold select_due at 1. simpl.
  destruct (loadable object) as [l|]; simpl; [|by apply sublist_cons].
  destruct (due st l); simpl; [by apply sublist_skip | by apply sublist_cons].
Qed.

Lemma getNextUpdateTime_maps l st which :
  get_map which (getNextUpdateTime l st).2 = get_map which st
  /\ failed_loadable_objects (getNextUpdateTime l st).2 = failed_loadable_objects st.
Proof.
  unfold getNextUpdateTime, uniform_int_distribution.
  destruct (max_sec (getLifetime l) <? min_sec (getLifetime l)); by destruct which.
Qed.

Lemma update_loop_spec clone which objs : forall st,
  NoDup objs.*1 ->
  exists st',
    update_loop clone which false objs st = Normal st'
    /\ get_map (other_map which) st' = get_map (other_map which) st
    /\ failed_loadable_objects st' = failed_loadable_objects st
    /\ (forall n, n ∉ objs.*1 -> get_map which st' !! n = get_map which st !! n)
    /\ (forall name l, (name, l) ∈ objs ->
          get_map which st' !! name
          = (fun it => match clone l with
                       | inr new_version =>
                           match getCreationException new_version with
                           | None => mkLoadableInfo (Some new_version) (source_type it)
                                                    (origin it) None
                           | Some e => mkLoadableInfo (loadable it) (source_type it)
                                                      (origin it) (Some e)
                           end
                       | inl e => mkLoadableInfo (loadable it) (source_type it)
                                                 (origin it) (Some e)
                       end) <$> get_map which st !! name).
Proof.
  induction objs as [|[name current] rest IH]; intros st Hnodup.
  - exists st. simpl. repeat split; try done.
    intros n l Hin. by apply elem_of_nil in Hin.
  - simpl in Hnodup. apply NoDup_cons in Hnodup as [Hfresh Hnodup].
    assert (forall st1 : State,
              get_map (other_map which) st1 = get_map (other_map which) st ->
              failed_loadable_objects st1 = failed_loadable_objects st ->
              (forall n, n <> name -> get_map which st1 !! n = get_map which st !! n) ->
              forall entry,
              get_map which st1 !! name = entry ->
              (forall l, (name, l) ∈ (name, current) :: rest -> l = current) ->
              exists st',
                update_loop clone which false rest st1 = Normal st'
                /\ get_map (other_map which) st' = get_map (other_map which) st
                /\ failed_loadable_objects st' = failed_loadable_objects st
                /\ (forall n, n ∉ name :: rest.*1 ->
                      get_map which st' !! n = get_map which st !! n)
                /\ (forall n l, (n, l) ∈ (name, current) :: rest ->
                      get_map which st' !! n
                      = if decide (n = name) then entry
                        else (fun it => match clone l with
                                        | inr new_version =>
                                            match getCreationException new_version with
                                            | None =>
                                                mkLoadableInfo (Some new_version)
                                                  (source_type it) (origin it) None
                                            | Some e =>
                                                mkLoadableInfo (loadable it)
                                                  (source_type it) (origin it) (Some e)
                                            end
                                        | inl e =>
                                            mkLoadableInfo (loadable it) (source_type it)
                                                           (origin it) (Some e)
                                        end) <$> get_map which st !! n)) as Hnext.
    { intros st1 Hother Hfailed Hrest entry Hentry Hsame.
      destruct (IH st1 Hnodup) as (st' & Hrun & Hother' & Hfailed' & Hout & Hin).
      exists st'. split; [done|]. split; [congruence|]. split; [congruence|]. split.
      - intros n Hn. apply not_elem_of_cons in Hn as [Hne Hn].
        rewrite Hout by done. by apply Hrest.
      - intros n l Hnl. destruct (decide (n = name)) as [->|Hne].
        + rewrite Hout by done. done.
        + apply elem_of_cons in Hnl as [[= -> ->] | Hnl]; [done|].
          rewrite (Hin n l Hnl). by rewrite Hrest. }
    assert (forall l, (name, l) ∈ (name, current) :: rest -> l = current) as Hsame.
    { intros l Hl. apply elem_of_cons in Hl as [[= ->] | Hl]; [done|].
      exfalso. apply Hfresh. apply list_elem_of_fmap. by exists (name, l). }
    assert (get_map which (log_clone name st) = get_map which st) as Hlog
      by (by destruct which).
    simpl. rewrite Hlog.
    destruct (get_map which st !! name) as [it|] eqn:Hit.
    + pose proof (getNextUpdateTime_maps current (log_clone name st)) as Hgn.
      destruct (getNextUpdateTime current (log_clone name st)) as [t st1] eqn:Hnt.
      simpl in Hgn.
      assert (forall m, get_map which
                (set_map which m
                   (set_update_times (<[name := t]> (update_times st1)) st1)) = m)
        as Hset by (intros m; by destruct which).
      assert (forall m, get_map (other_map which)
                (set_map which m
                   (set_update_times (<[name := t]> (update_times st1)) st1))
              = get_map (other_map which) st) as Hkeep.
      { intros m. destruct (Hgn (other_map which)) as [Hm _].
        destruct which; simpl in *; exact Hm. }
      assert (forall m, failed_loadable_objects
                (set_map which m
                   (set_update_times (<[name := t]> (update_times st1)) st1))
              = failed_loadable_objects st) as Hkeepf.
      { intros m. destruct (Hgn which) as [_ Hf]. destruct which; simpl in *; exact Hf. }
      assert (get_map which
                (set_update_times (<[name := t]> (update_times st1)) st1)
              = get_map which st) as Hcur.
      { destruct (Hgn which) as [Hm _]. destruct which; simpl in *; exact Hm. }
      assert (forall new, exists st',
                update_loop clone which false rest
                  (set_map which
                     (<[name := new]>
                        (get_map which
                           (set_update_times (<[name := t]> (update_times st1)) st1)))
                     (set_update_times (<[name := t]> (update_times st1)) st1))
                = Normal st'
                /\ get_map (other_map which) st' = get_map (other_map which) st
                /\ failed_loadable_objects st' = failed_loadable_objects st
                /\ (forall n, n ∉ name :: rest.*1 ->
                      get_map which st' !! n = get_map which st !! n)
                /\ get_map which st' !! name = Some new
                /\ (forall n l, (n, l) ∈ (name, current) :: rest -> n <> name ->
                      get_map which st' !! n
                      = (fun it => match clone l with
                                   | inr new_version =>
                                       match getCreationException new_version with
                                       | None =>
                                           mkLoadableInfo (Some new_version)
                                             (source_type it) (origin it) None
                                       | Some e =>
                                           mkLoadableInfo (loadable it)
                                             (source_type it) (origin it) (Some e)
                                       end
                                   | inl e =>
                                       mkLoadableInfo (loadable it) (source_type it)
                                                      (origin it) (Some e)
                                   end) <$> get_map which st !! n)) as Hgo.
      { intros new.
        set (m := <[name := new]>
                    (get_map which
                       (set_update_times (<[name := t]> (update_times st1)) st1))).
        destruct (Hnext _ (Hkeep m) (Hkeepf m)) with (entry := Some new)
          as (st' & Hrun & Ho & Hf & Hout & Hin).
        - intros n Hne. rewrite Hset. unfold m. rewrite Hcur.
          by rewrite lookup_insert_ne.
        - rewrite Hset. apply lookup_insert_eq.
        - exact Hsame.
        - exists st'. split; [exact Hrun|]. split; [done|]. split; [done|].
          split; [done|]. split.
          + specialize (Hin name current (list_elem_of_here _ _)).
            by rewrite decide_True in Hin.
          + intros n l Hnl Hne. specialize (Hin n l Hnl).
            by rewrite decide_False in Hin. }
      destruct (clone current) as [e|new_version] eqn:Hclone;
        [|destruct (getCreationException new_version) as [e|] eqn:Hexc];
        (match goal with
         | |- context [<[name := ?new]> _] =>
             destruct (Hgo new) as (st' & Hrun & Ho & Hf & Hout & Hname & Hin)
         end);
        exists st'; (split; [exact Hrun|]); (split; [done|]); (split; [done|]);
        (split; [done|]); intros n l Hnl;
        (destruct (decide (n = name)) as [->|Hne]; [|by apply Hin]);
        rewrite Hname, (Hsame l Hnl), Hit; simpl; by rewrite ?Hclone, ?Hexc.
    + assert (exists st',
                update_loop clone which false rest (log_clone name st) = Normal st'
                /\ get_map (other_map which) st' = get_map (other_map which) st
                /\ failed_loadable_objects st' = failed_loadable_objects st
                /\ (forall n, n ∉ name :: rest.*1 ->
                      get_map which st' !! n = get_map which st !! n)
                /\ (forall n l, (n, l) ∈ (name, current) :: rest ->
                      get_map which st' !! n
                      = if decide (n = name) then None
                        else (fun it => match clone l with
                                        | inr new_version =>
                                            match getCreationException new_version with
                                            | None =>
                                                mkLoadableInfo (Some new_version)
                                                  (source_type it) (origin it) None
                                            | Some e =>
                                                mkLoadableInfo (loadable it)
                                                  (source_type it) (origin it) (Some e)
                                            end
                                        | inl e =>
                                            mkLoadableInfo (loadable it) (source_type it)
                                                           (origin it) (Some e)
                                        end) <$> get_map which st !! n))
        as (st' & Hrun & Ho & Hf & Hout & Hin).
      { apply Hnext; [by destruct which | done | intros n _; by rewrite Hlog
                      | by rewrite Hlog, Hit | exact Hsame]. }
      assert (update_loop clone which false ((name, current) :: rest) st = Normal st')
        as Hwhole.
      { simpl. rewrite Hlog, Hit. by destruct (clone current). }
      simpl in Hwhole. rewrite Hlog, Hit in Hwhole.
      exists st'. split; [exact Hwhole|]. split; [done|]. split; [done|].
      split; [done|]. intros n l Hnl. rewrite (Hin n l Hnl).
      destruct (decide (n = name)) as [->|]; [|done]. by rewrite Hit.
Qed.

(** X8: an update phase that does not rethrow leaves every entry of the map
    in place: an entry that was due holds the new version with no stored
    exception when its clone is sound, and its old object next to the stored
    exception when [clone()] throws or the clone reports a creation
    exception; every other entry is as it was, and so are the other map and
    the failed objects. *)
Theorem updateObjects_installs
    (clone : IExternalLoadable -> Exception + IExternalLoadable)
    (which : ObjectsMapRef) (st : State) :
  exists st',
    updateObjects clone which false st = Normal st'
    /\ get_map which st' = updated clone st <$> get_map which st
    /\ get_map (other_map which) st' = get_map (other_map which) st
    /\ failed_loadable_objects st' = failed_loadable_objects st.
Proof.
  unfold updateObjects.
  pose proof (collect_objects_to_update_spec (map_to_list (get_map which st)) st)
    as [Hobjs _].
  pose proof (collect_objects_to_update_maps (map_to_list (get_map which st)) which st)
    as [Hmap Hfail].
  pose proof (collect_objects_to_update_maps (map_to_list (get_map which st))
                (other_map which) st) as [Hmap' _].
  destruct (collect_objects_to_update (map_to_list (get_map which st)) st)
    as [objs st1]. simpl in *.
  destruct (update_loop_spec clone which objs st1) as (st' & Hrun & Ho & Hf & Hout & Hin).
  { subst objs.
    apply (sublist_NoDup _ (map_to_list (get_map which st)).*1).
    - apply NoDup_fst_map_to_list.
    - apply omap_select_due_sublist. }
  exists st'. split; [done|]. split; [|split; congruence].
  apply map_eq. intros n. rewrite lookup_fmap.
  destruct (decide (n ∈ objs.*1)) as [Hn | Hn].
  - apply list_elem_of_fmap in Hn as ([n' l] & -> & Hnl). simpl.
    rewrite (Hin n' l Hnl), Hmap.
    subst objs. apply list_elem_of_omap in Hnl as ([n2 it] & Hit & Hsel).
    apply elem_of_map_to_list in Hit. unfold select_due in Hsel. simpl in Hsel.
    destruct (loadable it) as [l2|] eqn:Hl2; simpl in Hsel; [|done].
    destruct (due st l2) eqn:Hdue; [|done]. injection Hsel as -> ->.
    rewrite Hit. simpl. unfold updated, installed. by rewrite Hl2, Hdue.
  - rewrite Hout, Hmap by done.
    destruct (get_map which st !! n) as [it|] eqn:Hit; simpl; [|done]. f_equal.
    unfold updated. destruct (loadable it) as [l|] eqn:Hl; [|done].
    destruct (due st l) eqn:Hdue; [|done].
    exfalso. apply Hn. subst objs. apply list_elem_of_fmap. exists (n, l).
    split; [done|]. apply list_elem_of_omap. exists (n, it).
    split; [by apply elem_of_map_to_list|].
    unfold select_due. simpl. rewrite Hl. simpl. by rewrite Hdue.
Qed.

(** *** What a retry leaves in the map of the file objects *)






End ExternalLoader.

Module DictionaryStructure.

Definition Exception := string.

Inductive Result (A : Type) :=
| Returns (a : A)
| Throws (e : Exception).
Arguments Returns {A} a.
Arguments Throws {A} e.

#[local] Instance result_ret : MRet Result := fun A a => Returns a.
#[local] Instance result_bind : MBind Result := fun A B f m =>
  match m with
  | Returns a => f a
  | Throws e => Throws e
  end.

(** *** The configuration *)

(** A [Poco::Util::AbstractConfiguration]: each element has a text and its
    child elements, named as [keys] enumerates them (a repeated name is
    numbered: [attribute], [attribute[1]], ...).  A dotted key is the list
    of its components. *)
#[warnings="-register-all"]
Inductive Config := Node (text : string) (children : list (string * Config)).

Definition text_of (c : Config) : string := match c with Node t _ => t end.
Definition children_of (c : Config) := match c with Node _ cs => cs end.

Fixpoint child (name : string) (cs : list (string * Config)) : option Config :=
  match cs with
  | [] => None
  | (k, c) :: rest => if bool_decide (k = name) then Some c else child name rest
  end.

Fixpoint find (path : list string) (c : Config) : option Config :=
  match path with
  | [] => Some c
  | k :: rest =>
      match child k (children_of c) with
      | Some c' => find rest c'
      | None => None
      end
  end.

Definition has (config : Config) (key : list string) : bool :=
  bool_decide (is_Some (find key config)).

Definition keys (config : Config) (key : list string) : list string :=
  match find key config with
  | Some c => (children_of c).*1
  | None => []
  end.

(** [getString(key)] throws on a missing key. *)
Definition getString (config : Config) (key : list string) : Result string :=
  match find key config with
  | Some c => Returns (text_of c)
  | None => Throws "Not found"
  end.

(** [getString(key, default)]. *)
Definition getString_or (config : Config) (key : list string) (deflt : string) : string :=
  match find key config with
  | Some c => text_of c
  | None => deflt
  end.

Definition empty (s : string) : bool := bool_decide (s = ""%string).

(** *** Types of attributes *)

Inductive AttributeUnderlyingType :=
| UInt8 | UInt16 | UInt32 | UInt64 | UInt128
| Int8 | Int16 | Int32 | Int64
| Float32 | Float64
| Decimal32 | Decimal64 | Decimal128
| String_.

Definition dictionary : list (string * AttributeUnderlyingType) :=
  [ ("UInt8", UInt8); ("UInt16", UInt16); ("UInt32", UInt32); ("UInt64", UInt64);
    ("UUID", UInt128);
    ("Int8", Int8); ("Int16", Int16); ("Int32", Int32); ("Int64", Int64);
    ("Float32", Float32); ("Float64", Float64);
    ("String", String_);
    ("Date", UInt16); ("DateTime", UInt32) ]%string.

Fixpoint lookup_type (type : string) (table : list (string * AttributeUnderlyingType))
    : option AttributeUnderlyingType :=
  match table with
  | [] => None
  | (k, v) :: rest => if bool_decide (k = type) then Some v else lookup_type type rest
  end.

Definition getAttributeUnderlyingType (type : string) : Result AttributeUnderlyingType :=
  match lookup_type type dictionary with
  | Some t => Returns t
  | None =>
      if String.prefix "Decimal32" type then Returns Decimal32
      else if String.prefix "Decimal64" type then Returns Decimal64
      else if String.prefix "Decimal128" type then Returns Decimal128
      else Throws ("Unknown type " +:+ type)
  end.

Definition Field := string.

(** [IDataType], by what its methods return; [getSizeOfValueInMemory]
    throws for a type whose values have no fixed size. *)
Record IDataType := mkDataType {
  getName : string;
  isValueRepresentedByInteger : bool;
  getSizeOfValueInMemory : Result Z;
  getDefault : Field;
  deserializeAsTextEscaped : string -> Result Field
}.

Record DictionarySpecialAttribute := mkSpecial {
  special_name : string;
  special_expression : string
}.

Record DictionaryTypedSpecialAttribute := mkTypedSpecial {
  typed_name : string;
  typed_expression : string;
  typed_type : IDataType
}.

Record DictionaryAttribute := mkAttribute {
  name : string;
  underlying_type : AttributeUnderlyingType;
  type : IDataType;
  expression : string;
  null_value : Field;
  hierarchical : bool;
  injective : bool;
  is_object_id : bool
}.

Record DictionaryStructure := mkStructure {
  id : option DictionarySpecialAttribute;
  key : option (list DictionaryAttribute);
  attributes : list DictionaryAttribute;
  range_min : option DictionaryTypedSpecialAttribute;
  range_max : option DictionaryTypedSpecialAttribute;
  has_expressions : bool
}.

Definition valid_keys : list string :=
  ["name"; "type"; "expression"; "null_value"; "hierarchical"; "injective";
   "is_object_id"]%string.

Fixpoint checkAttributeKeys (ks : list string) : Result unit :=
  match ks with
  | [] => Returns tt
  | k :: rest =>
      if bool_decide (k ∈ valid_keys) then checkAttributeKeys rest
      else Throws ("Unknown key '" +:+ k +:+ "' inside attribute section")
  end.

Section WithFactory.

(** [DataTypeFactory::instance().get], which throws on a name it does not
    know; [IDataType::equals]; and the parsing of a boolean by
    [getBool], which throws on a text that is none. *)
Variable DataTypeFactory_get : string -> Result IDataType.
Variable equals : IDataType -> IDataType -> bool.
Variable parseBool : string -> Result bool.

(** [getBool(key, default)]. *)
Definition getBool_or (config : Config) (key : list string) (deflt : bool) : Result bool :=
  match find key config with
  | Some c => parseBool (text_of c)
  | None => Returns deflt
  end.

(** The constructor of [DictionarySpecialAttribute]. *)
Definition makeDictionarySpecialAttribute (config : Config) (config_prefix : list string)
    : Result DictionarySpecialAttribute :=
  let name := getString_or config (config_prefix ++ ["name"%string]) "" in
  let expression := getString_or config (config_prefix ++ ["expression"%string]) "" in
  if empty name && negb (empty expression) then Throws "Element .name is empty"
  else Returns (mkSpecial name expression).

Definition makeDictionaryTypedSpecialAttribute (config : Config)
    (config_prefix : list string) (default_type : string)
    : Result DictionaryTypedSpecialAttribute :=
  let name := getString_or config (config_prefix ++ ["name"%string]) "" in
  let expression := getString_or config (config_prefix ++ ["expression"%string]) "" in
  if empty name && negb (empty expression) then Throws "Element .name is empty"
  else
    let type_name := getString_or config (config_prefix ++ ["type"%string]) default_type in
    t ← DataTypeFactory_get type_name;
    Returns (mkTypedSpecial name expression t).

(** One turn of the loop of [getAttributes], on an element whose name starts
    with "attribute": the attribute it adds. *)
Definition parse_attribute (config : Config) (config_prefix : list string)
    (hierarchy_allowed allow_null_values : bool) (config_elem : string)
    (has_hierarchy : bool) : Result DictionaryAttribute :=
  let prefix := config_prefix ++ [config_elem] in
  _ ← checkAttributeKeys (keys config prefix);
  name ← getString config (prefix ++ ["name"%string]);
  type_string ← getString config (prefix ++ ["type"%string]);
  type ← DataTypeFactory_get type_string;
  underlying_type ← getAttributeUnderlyingType type_string;
  let expression := getString_or config (prefix ++ ["expression"%string]) "" in
  null_value ←
    (if allow_null_values then
       null_value_string ← getString config (prefix ++ ["null_value"%string]);
       if empty null_value_string then Returns (getDefault type)
       else deserializeAsTextEscaped type null_value_string
     else Returns ""%string);
  hierarchical ← getBool_or config (prefix ++ ["hierarchical"%string]) false;
  injective ← getBool_or config (prefix ++ ["injective"%string]) false;
  is_object_id ← getBool_or config (prefix ++ ["is_object_id"%string]) false;
  if empty name then Throws "Properties 'name' and 'type' of an attribute cannot be empty"
  else if has_hierarchy && negb hierarchy_allowed then Throws "Hierarchy not allowed"
  else if has_hierarchy && hierarchical then
    Throws "Only one hierarchical attribute supported"
  else Returns (mkAttribute name underlying_type type expression null_value
                            hierarchical injective is_object_id).

(** The loop of [getAttributes]: the attributes, and [has_expressions]. *)
Fixpoint getAttributes_loop (config : Config) (config_prefix : list string)
    (hierarchy_allowed allow_null_values : bool) (config_elems : list string)
    (has_hierarchy has_expr : bool) : Result (list DictionaryAttribute * bool) :=
  match config_elems with
  | [] => Returns ([], has_expr)
  | config_elem :: rest =>
      if negb (String.prefix "attribute" config_elem) then
        getAttributes_loop config config_prefix hierarchy_allowed allow_null_values
                           rest has_hierarchy has_expr
      else
        a ← parse_attribute config config_prefix hierarchy_allowed allow_null_values
                            config_elem has_hierarchy;
        '(res, has_expr) ←
          getAttributes_loop config config_prefix hierarchy_allowed allow_null_values
                             rest (has_hierarchy || hierarchical a)
                             (has_expr || negb (empty (expression a)));
        Returns (a :: res, has_expr)
  end.

Definition getAttributes (config : Config) (config_prefix : list string)
    (hierarchy_allowed allow_null_values : bool) (has_expr : bool)
    : Result (list DictionaryAttribute * bool) :=
  getAttributes_loop config config_prefix hierarchy_allowed allow_null_values
                     (keys config config_prefix) false has_expr.

(** The part of the constructor on the ranges, entered when [id] is set. *)
Definition range_attributes (config : Config) (config_prefix : list string)
    : Result (option DictionaryTypedSpecialAttribute
              * option DictionaryTypedSpecialAttribute) :=
  let range_default_type := "Date"%string in
  range_min ←
    (if has config (config_prefix ++ ["range_min"%string]) then
       a ← makeDictionaryTypedSpecialAttribute
             config (config_prefix ++ ["range_min"%string]) range_default_type;
       Returns (Some a)
     else Returns None);
  range_max ←
    (if has config (config_prefix ++ ["range_max"%string]) then
       a ← makeDictionaryTypedSpecialAttribute
             config (config_prefix ++ ["range_max"%string]) range_default_type;
       Returns (Some a)
     else Returns None);
  match range_min, range_max with
  | Some _, None | None, Some _ =>
      Throws "Dictionary structure should have both 'range_min' and 'range_max' either specified or not."
  | None, None => Returns (None, None)
  | Some lo, Some hi =>
      if negb (equals (typed_type lo) (typed_type hi)) then
        Throws "Dictionary structure 'range_min' and 'range_max' should have same type"
      else if negb (isValueRepresentedByInteger (typed_type lo)) then
        Throws "Dictionary structure type of 'range_min' and 'range_max' should be an integer, Date, DateTime, or Enum."
      else Returns (Some lo, Some hi)
  end.

(** The constructor [DictionaryStructure(config, config_prefix)]; the
    attributes of the structure are read with [hierarchy_allowed] and
    [allow_null_values] at their defaults, [true]. *)
Definition construct (config : Config) (config_prefix : list string)
    : Result DictionaryStructure :=
  let has_id := has config (config_prefix ++ ["id"%string]) in
  let has_key := has config (config_prefix ++ ["key"%string]) in
  if has_key && has_id then Throws "Only one of 'id' and 'key' should be specified"
  else
    '(id, key, has_expr) ←
      (if has_id then
         a ← makeDictionarySpecialAttribute config (config_prefix ++ ["id"%string]);
         Returns (Some a, None, false)
       else if has_key then
         '(k, has_expr) ← getAttributes config (config_prefix ++ ["key"%string])
                                        false false false;
         if bool_decide (k = []) then Throws "Empty 'key' supplied"
         else Returns (None, Some k, has_expr)
       else Throws "Dictionary structure should specify either 'id' or 'key'");
    '(range_min, range_max, has_expr) ←
      match id with
      | Some i =>
          if empty (special_name i) then Throws "'id' cannot be empty"
          else
            '(lo, hi) ← range_attributes config config_prefix;
            let with_expr (a : option DictionaryTypedSpecialAttribute) :=
              match a with
              | Some a => negb (empty (typed_expression a))
              | None => false
              end in
            Returns (lo, hi,
                     if negb (empty (special_expression i)) || with_expr lo || with_expr hi
                     then true else has_expr)
      | None => Returns (None, None, has_expr)
      end;
    '(attributes, has_expr) ← getAttributes config config_prefix true true has_expr;
    if bool_decide (attributes = []) then Throws "Dictionary has no attributes defined"
    else Returns (mkStructure id key attributes range_min range_max has_expr).

End WithFactory.

(** *** The key of a structure *)

(** How a method that dereferences an optional is left. *)
Inductive Outcome (A : Type) :=
| Ok (a : A)
| Raised (e : Exception)
| UndefinedBehaviour.
Arguments Ok {A} a.
Arguments Raised {A} e.
Arguments UndefinedBehaviour {A}.

Fixpoint check_key_types (expected : list DictionaryAttribute)
    (key_types : list IDataType) : Outcome unit :=
  match expected, key_types with
  | a :: expected, t :: key_types =>
      if bool_decide (getName (type a) = getName t)
      then check_key_types expected key_types
      else Raised ("Key type does not match, expected " +:+ getName (type a)
                   +:+ ", found " +:+ getName t)
  | _, _ => Ok tt
  end.

(** [validateKeyTypes]: [key->size()] comes first, whatever [key] holds. *)
Definition validateKeyTypes (s : DictionaryStructure) (key_types : list IDataType)
    : Outcome unit :=
  match key s with
  | None => UndefinedBehaviour
  | Some k =>
      if negb (length key_types =? length k)%nat then
        Raised "Key structure does not match"
      else check_key_types k key_types
  end.

Fixpoint accumulate_sizes (k : list DictionaryAttribute) (running_size : Z) : Outcome Z :=
  match k with
  | [] => Ok running_size
  | key_i :: rest =>
      match getSizeOfValueInMemory (type key_i) with
      | Returns n => accumulate_sizes rest ((running_size + n) `mod` 2 ^ 64)
      | Throws e => Raised e
      end
  end.

(** [getKeySize]: [std::accumulate] over [*key], whatever [key] holds. *)
Definition getKeySize (s : DictionaryStructure) : Outcome Z :=
  match key s with
  | None => UndefinedBehaviour
  | Some k => accumulate_sizes k 0
  end.

Definition is_undefined {A} (o : Outcome A) : bool :=
  match o with UndefinedBehaviour => true | _ => false end.

(** *** Sample types and configurations *)

Definition data_type (n : string) (int : bool) (size : Result Z) : IDataType :=
  mkDataType n int size "0" (fun s => Returns s).

Definition sample_factory (t : string) : Result IDataType :=
  if bool_decide (t = "UInt64"%string) then Returns (data_type t true (Returns 8))
  else if bool_decide (t = "Date"%string) then Returns (data_type t true (Returns 2))
  else if bool_decide (t = "DateTime"%string) then Returns (data_type t true (Returns 4))
  else if bool_decide (t = "String"%string)
       then Returns (data_type t false (Throws "no fixed size"))
  else Throws ("Unknown data type " +:+ t).

Definition sample_equals (a b : IDataType) : bool :=
  bool_decide (getName a = getName b).

Definition sample_parseBool (s : string) : Result bool :=
  if bool_decide (s = "true"%string) then Returns true
  else if bool_decide (s = "false"%string) then Returns false
  else Throws "Syntax error".

Definition leaf (s : string) : Config := Node s [].

Definition attribute_section (n t : string) (extra : list (string * Config)) : Config :=
  Node "" ([("name"%string, leaf n); ("type"%string, leaf t);
            ("null_value"%string, leaf "")] ++ extra).

Definition structure_of (sections : list (string * Config)) : Config :=
  Node "" [("structure"%string, Node "" sections)].

Definition id_section : string * Config :=
  ("id"%string, Node "" [("name"%string, leaf "k")]).

Definition key_section : string * Config :=
  ("key"%string,
   Node "" [("attribute"%string,
             Node "" [("name"%string, leaf "k"); ("type"%string, leaf "UInt64")])]).

Definition range_section (which t : string) : string * Config :=
  (which, Node "" [("name"%string, leaf which); ("type"%string, leaf t)]).

(** A structure by [id]. *)
Definition config_by_id : Config :=
  structure_of [id_section; ("attribute"%string, attribute_section "a" "String" [])].

(** A structure by [key] that has [range_min] only. *)
Definition config_key_range_min : Config :=
  structure_of [key_section; range_section "range_min" "Date";
                ("attribute"%string, attribute_section "a" "String" [])].







Section Rejections.

Variable DataTypeFactory_get : string -> Result IDataType.
Variable equals : IDataType -> IDataType -> bool.
Variable parseBool : string -> Result bool.


































(** C10: [validateKeyTypes] and [getKeySize] dereference [key] whatever it
    holds: on a structure with a key neither ends in undefined behaviour, on
    a structure without one both do; and the constructor leaves [key] set
    exactly on the configurations by [key], empty on those by [id]. *)
Theorem key_dereference (s : DictionaryStructure) :
  (forall k key_types, key s = Some k ->
      is_undefined (validateKeyTypes s key_types) = false
      /\ is_undefined (getKeySize s) = false)
  /\ (forall key_types, key s = None ->
        validateKeyTypes s key_types = UndefinedBehaviour
        /\ getKeySize s = UndefinedBehaviour)
  /\ (forall config config_prefix,
        construct DataTypeFactory_get equals parseBool config config_prefix = Returns s ->
        (has config (config_prefix ++ ["key"%string]) = true -> is_Some (key s))
        /\ (has config (config_prefix ++ ["id"%string]) = true -> key s = None)).
Proof.
  split; [|split].
  - intros k key_types Hk. unfold validateKeyTypes, getKeySize. rewrite Hk. split.
    + destruct (negb _); [done|]. clear Hk. revert key_types.
      induction k as [|a k IH]; intros [|t key_types]; simpl; try done.
      case_bool_decide; [apply IH | done].
    + clear Hk. generalize 0. induction k as [|a k IH]; intros z; simpl; [done|].
      destruct (getSizeOfValueInMemory (type a)); [apply IH | done].
  - intros key_types Hk. unfold validateKeyTypes, getKeySize. by rewrite Hk.
  - intros config config_prefix. unfold construct.
    destruct (has config (config_prefix ++ ["key"%string])) eqn:Hkey;
      destruct (has config (config_prefix ++ ["id"%string])) eqn:Hid; simpl;
      try (by intros [=]).
    + destruct (getAttributes _ _ _ _ _ _ _) as [[k he]|]; simpl; [|by intros [=]].
      case_bool_decide; simpl; [by intros [=]|].
      destruct (getAttributes _ _ _ _ _ _ _) as [[attrs he']|]; simpl; [|by intros [=]].
      case_bool_decide; [by intros [=]|]. intros [= <-]. simpl. split; [eauto | done].
    + destruct (makeDictionarySpecialAttribute _ _) as [i|]; simpl; [|by intros [=]].
      destruct (empty (special_name i)); simpl; [by intros [=]|].
      destruct (range_attributes _ _ _ _) as [[lo hi]|]; simpl; [|by intros [=]].
      destruct (getAttributes _ _ _ _ _ _ _) as [[attrs he']|]; simpl; [|by intros [=]].
      case_bool_decide; [by intros [=]|]. intros [= <-]. simpl. split; [done | done].
Qed.

End Rejections.



Lemma key_dereference_witness :
  (exists s, construct sample_factory sample_equals sample_parseBool
                       config_by_id ["structure"%string] = Returns s
             /\ key s = None
             /\ validateKeyTypes s [] = UndefinedBehaviour
             /\ getKeySize s = UndefinedBehaviour)
  /\ (exists s, construct sample_factory sample_equals sample_parseBool
                          config_key_range_min ["structure"%string] = Returns s
                /\ is_Some (key s)
                /\ is_undefined (validateKeyTypes s []) = false
                /\ is_undefined (getKeySize s) = false).
Proof.
  split.
  - eexists. split; [vm_compute; reflexivity|].
    match goal with
    | |- key ?s = None /\ _ =>
        destruct (key_dereference sample_factory sample_equals sample_parseBool s)
          as (_ & Hnone & Hbuilt)
    end.
    destruct (Hbuilt config_by_id ["structure"%string]) as [_ Hid];
      [vm_compute; reflexivity|].
    split; [apply Hid; vm_compute; reflexivity|].
    apply Hnone. apply Hid. vm_compute. reflexivity.
  - eexists. split; [vm_compute; reflexivity|].
    match goal with
    | |- is_Some (key ?s) /\ _ =>
        destruct (key_dereference sample_factory sample_equals sample_parseBool s)
          as (Hsome & _ & Hbuilt)
    end.
    destruct (Hbuilt config_key_range_min ["structure"%string]) as [Hkey _];
      [vm_compute; reflexivity|].
    split; [apply Hkey; vm_compute; reflexivity|].
    destruct (Hkey ltac:(vm_compute; reflexivity)) as [k Hk].
    by apply (Hsome k).
Defined.

(** *** Names and conversions of the underlying types *)

#[local] Instance AttributeUnderlyingType_eq_dec : EqDecision AttributeUnderlyingType.
Proof. solve_decision. Defined.

Definition isAttributeTypeConvertibleTo (from to : AttributeUnderlyingType) : bool :=
  if bool_decide (from = to) then true
  else
    match from, to with
    | UInt8, UInt16 | UInt8, UInt32 | UInt8, UInt64
    | UInt16, UInt32 | UInt16, UInt64
    | UInt32, UInt64
    | UInt8, Int16 | UInt8, Int32 | UInt8, Int64
    | UInt16, Int32 | UInt16, Int64
    | UInt32, Int64
    | Int8, Int16 | Int8, Int32 | Int8, Int64
    | Int16, Int32 | Int16, Int64
    | Int32, Int64
    | Float32, Float64 => true
    | _, _ => false
    end.

Definition toString (type : AttributeUnderlyingType) : string :=
  match type with
  | UInt8 => "UInt8"
  | UInt16 => "UInt16"
  | UInt32 => "UInt32"
  | UInt64 => "UInt64"
  | UInt128 => "UUID"
  | Int8 => "Int8"
  | Int16 => "Int16"
  | Int32 => "Int32"
  | Int64 => "Int64"
  | Float32 => "Float32"
  | Float64 => "Float64"
  | Decimal32 => "Decimal32"
  | Decimal64 => "Decimal64"
  | Decimal128 => "Decimal128"
  | String_ => "String"
  end.

(** X10: the name [toString] gives an underlying type is read back by
    [getAttributeUnderlyingType] as that type; the converse fails on the two
    names that share an underlying type, [Date] and [DateTime]. *)
Theorem toString_read_back :
  (forall t, getAttributeUnderlyingType (toString t) = Returns t)
  /\ (toString <$> [UInt16; UInt32]) = ["UInt16"; "UInt32"]%string
  /\ getAttributeUnderlyingType "Date" = Returns UInt16
  /\ getAttributeUnderlyingType "DateTime" = Returns UInt32.
Proof. split; [intros []; vm_compute; reflexivity | done]. Qed.

(** X11: [isAttributeTypeConvertibleTo] is a partial order on the underlying
    types: reflexive, antisymmetric and transitive. *)
Theorem isAttributeTypeConvertibleTo_order :
  (forall a, isAttributeTypeConvertibleTo a a = true)
  /\ (forall a b, isAttributeTypeConvertibleTo a b = true ->
                 isAttributeTypeConvertibleTo b a = true -> a = b)
  /\ (forall a b c, isAttributeTypeConvertibleTo a b = true ->
                   isAttributeTypeConvertibleTo b c = true ->
                   isAttributeTypeConvertibleTo a c = true).
Proof.
  split; [|split].
  - by intros [].
  - intros [] []; vm_compute; congruence.
  - intros [] [] []; vm_compute; congruence.
Qed.

(** *** The key types *)

Lemma check_key_types_spec k : forall key_types,
  length key_types = length k ->
  (check_key_types k key_types = Ok tt
   <-> getName <$> key_types = (fun a => getName (type a)) <$> k)
  /\ ((exists e, check_key_types k key_types = Raised e)
      \/ check_key_types k key_types = Ok tt).
Proof.
  induction k as [|a k IH]; intros [|t key_types] Hlen; simpl in *; try done.
  - split; [done | by right].
  - destruct (IH key_types) as [Hiff Hcase]; [lia|].
    case_bool_decide as Hname.
    + split; [|done]. split.
      * intros Hok. apply Hiff in Hok. by f_equal.
      * intros [= _ Heq]. by apply Hiff.
    + split; [|by eauto]. split; [done|]. intros [= Heq _]. congruence.
Qed.

(** X12: on a structure with a key, [validateKeyTypes] returns normally
    exactly for the lists of types that have the length of the key and, at
    every position, the name of the type of the key attribute; for every
    other list it throws. *)
Theorem validateKeyTypes_accepts (s : DictionaryStructure)
    (k : list DictionaryAttribute) (key_types : list IDataType) :
  key s = Some k ->
  (validateKeyTypes s key_types = Ok tt
   <-> getName <$> key_types = (fun a => getName (type a)) <$> k)
  /\ (validateKeyTypes s key_types <> Ok tt ->
      exists e, validateKeyTypes s key_types = Raised e).
Proof.
  intros Hk. unfold validateKeyTypes. rewrite Hk.
  destruct (length key_types =? length k)%nat eqn:Hlen; simpl.
  - apply Nat.eqb_eq in Hlen.
    destruct (check_key_types_spec k key_types Hlen) as [Hiff [[e He] | Hok]].
    + split; [done|]. eauto.
    + split; [done|]. by rewrite Hok.
  - apply Nat.eqb_neq in Hlen. split; [|by eauto].
    split; [done|]. intros Heq. apply (f_equal length) in Heq.
    rewrite !length_fmap in Heq. done.
Qed.

Lemma validateKeyTypes_accepts_witness :
  exists s,
    construct sample_factory sample_equals sample_parseBool
              config_key_range_min ["structure"%string] = Returns s
    /\ validateKeyTypes s [data_type "UInt64" true (Returns 8)] = Ok tt
    /\ exists e, validateKeyTypes s [data_type "String" false (Throws "")] = Raised e.
Proof.
  eexists. split; [vm_compute; reflexivity|].
  match goal with
  | |- validateKeyTypes ?s _ = _ /\ _ =>
      pose proof (fun kt => validateKeyTypes_accepts s _ kt eq_refl) as Hspec
  end.
  split.
  - apply Hspec. reflexivity.
  - apply Hspec. intros Hok. apply Hspec in Hok. discriminate Hok.
Defined.

(** *** What a structure that was built holds *)

Section Built.

Variable DataTypeFactory_get : string -> Result IDataType.
Variable equals : IDataType -> IDataType -> bool.
Variable parseBool : string -> Result bool.

(** The attribute [a] is what the section [config_elem] under [q] says. *)
Definition reads_section (config : Config) (q : list string)
    (a : DictionaryAttribute) (config_elem : string) : Prop :=
  getString config ((q ++ [config_elem]) ++ ["name"%string]) = Returns (name a)
  /\ (exists t, getString config ((q ++ [config_elem]) ++ ["type"%string]) = Returns t
                /\ DataTypeFactory_get t = Returns (type a)
                /\ getAttributeUnderlyingType t = Returns (underlying_type a))
  /\ expression a = getString_or config ((q ++ [config_elem]) ++ ["expression"%string]) ""
  /\ getBool_or parseBool config ((q ++ [config_elem]) ++ ["hierarchical"%string]) false
     = Returns (hierarchical a)
  /\ getBool_or parseBool config ((q ++ [config_elem]) ++ ["injective"%string]) false
     = Returns (injective a)
  /\ getBool_or parseBool config ((q ++ [config_elem]) ++ ["is_object_id"%string]) false
     = Returns (is_object_id a).

(** The sections the loop of [getAttributes] reads. *)
Definition attribute_sections (config : Config) (q : list string) : list string :=
  filter (fun e => Is_true (String.prefix "attribute" e)) (keys config q).

Definition hierarchical_count (attrs : list DictionaryAttribute) : nat :=
  length (filter (fun a => Is_true (hierarchical a)) attrs).

Lemma parse_attribute_returns config q ha an config_elem hh a :
  parse_attribute DataTypeFactory_get parseBool config q ha an config_elem hh = Returns a ->
  reads_section config q a config_elem
  /\ name a <> ""%string
  /\ hh && negb ha = false
  /\ hh && hierarchical a = false.
Proof.
  unfold parse_attribute, reads_section.
  repeat match goal with
  | |- context [mbind _ ?m] =>
      match m with
      | Returns _ => fail 1
      | _ => destruct m eqn:?; [simpl | by intros [=]]
      end
  end.
  unfold empty. case_bool_decide as Hname; [by intros [=]|].
  destruct (hh && negb ha) eqn:Hha; [by intros [=]|].
  match goal with
  | |- context [if hh && ?b then _ else _] => destruct (hh && b) eqn:Hhb; [by intros [=]|]
  end.
  intros [= <-]. simpl. eauto 20.
Qed.

Lemma getAttributes_loop_returns config q ha an elems : forall hh he attrs he',
  getAttributes_loop DataTypeFactory_get parseBool config q ha an elems hh he
  = Returns (attrs, he') ->
  Forall2 (reads_section config q) attrs
          (filter (fun e => Is_true (String.prefix "attribute" e)) elems)
  /\ Forall (fun a => name a <> ""%string) attrs
  /\ (ha = true -> (hierarchical_count attrs + (if hh then 1 else 0) <= 1)%nat)
  /\ (ha = false ->
      (hh = true -> attrs = [])
      /\ forall l1 a l2, attrs = l1 ++ a :: l2 -> hierarchical a = true -> l2 = []).
Proof.
  induction elems as [|elem rest IH]; intros hh he attrs he'; simpl.
  - intros [= <- <-]. repeat split; try done.
    + destruct hh; simpl; lia.
    + intros [|? ?] ? ?; done.
  - rewrite filter_cons.
    destruct (String.prefix "attribute" elem) eqn:Hattr; simpl.
    + destruct (parse_attribute _ _ _ _ _ _ elem hh) as [a|] eqn:Hparse; simpl; [|done].
      destruct (getAttributes_loop _ _ _ _ _ _ rest _ _) as [[res he1]|] eqn:Hrest;
        simpl; [|done].
      intros [= <- <-].
      apply parse_attribute_returns in Hparse as (Hreads & Hname & Hha & Hhb).
      destruct (IH _ _ _ _ Hrest) as (Hall & Hnames & Hallowed & Hnot).
      split; [by constructor|]. split; [by constructor|]. split.
      * intros ->. specialize (Hallowed eq_refl). unfold hierarchical_count in *.
        rewrite filter_cons.
        destruct hh, (hierarchical a); simpl in *; try done; lia.
      * intros ->. destruct (Hnot eq_refl) as [Hempty Hlast].
        rewrite andb_true_r in Hha. subst hh. simpl in *.
        split; [done|]. intros [|b l1] a' l2; simpl.
        -- intros [= <- <-] Hh. apply Hempty. by rewrite Hh.
        -- intros [= <- Hres]. by eapply Hlast.
    + rewrite ?decide_False by (by rewrite Hattr). apply IH.
Qed.

(** X13: a structure that the constructor returns has at least one attribute;
    it has either an [id] with a name and no key, or a key with at least one
    attribute, no [id] and no ranges; its ranges are both absent, or both
    present with types that [equals] accepts and that are represented by
    integers; no attribute of the structure or of the key has an empty name;
    at most one attribute of the structure is hierarchical; and in the key
    only the last attribute can be hierarchical. *)
Theorem construct_invariants (config : Config) (config_prefix : list string)
    (s : DictionaryStructure) :
  construct DataTypeFactory_get equals parseBool config config_prefix = Returns s ->
  attributes s <> []
  /\ ((exists i, id s = Some i /\ special_name i <> ""%string /\ key s = None)
      \/ (id s = None /\ range_min s = None /\ range_max s = None
          /\ exists k, key s = Some k /\ k <> []))
  /\ match range_min s, range_max s with
     | Some lo, Some hi =>
         equals (typed_type lo) (typed_type hi) = true
         /\ isValueRepresentedByInteger (typed_type lo) = true
     | None, None => True
     | _, _ => False
     end
  /\ Forall (fun a => name a <> ""%string) (attributes s ++ default [] (key s))
  /\ (hierarchical_count (attributes s) <= 1)%nat
  /\ (forall k l1 a l2, key s = Some k -> k = l1 ++ a :: l2 ->
                        hierarchical a = true -> l2 = []).
Proof.
  unfold construct.
  destruct (has config (config_prefix ++ ["key"%string])) eqn:Hkey;
    destruct (has config (config_prefix ++ ["id"%string])) eqn:Hid; simpl;
    try (by intros [=]).
  - unfold getAttributes.
    destruct (getAttributes_loop _ _ _ (config_prefix ++ ["key"%string]) _ _ _ _ _)
      as [[k he]|] eqn:Hk; simpl; [|by intros [=]].
    case_bool_decide as Hempty; simpl; [by intros [=]|].
    destruct (getAttributes_loop _ _ _ config_prefix _ _ _ _ _)
      as [[attrs he']|] eqn:Hattrs; simpl; [|by intros [=]].
    case_bool_decide as Hnone; [by intros [=]|]. intros [= <-]. simpl.
    apply getAttributes_loop_returns in Hk as (_ & Hknames & _ & Hknot).
    apply getAttributes_loop_returns in Hattrs as (_ & Hnames & Hcount & _).
    split; [done|]. split; [right; eauto 10|]. split; [done|].
    split; [by apply Forall_app|]. split; [specialize (Hcount eq_refl); lia|].
    intros k' l1 a l2 [= <-]. by apply Hknot.
  - destruct (makeDictionarySpecialAttribute _ _) as [i|]; simpl; [|by intros [=]].
    unfold empty at 1. case_bool_decide as Hname; simpl; [by intros [=]|].
    destruct (range_attributes _ _ _ _) as [[lo hi]|] eqn:Hrange; simpl;
      [|by intros [=]].
    unfold getAttributes.
    destruct (getAttributes_loop _ _ _ config_prefix _ _ _ _ _)
      as [[attrs he']|] eqn:Hattrs; simpl; [|by intros [=]].
    case_bool_decide as Hnone; [by intros [=]|]. intros [= <-]. simpl.
    apply getAttributes_loop_returns in Hattrs as (_ & Hnames & Hcount & _).
    split; [done|]. split; [left; eauto|]. split.
    { unfold range_attributes in Hrange.
      repeat match type of Hrange with
      | context [mbind _ ?m] =>
          match m with
          | Returns _ => fail 1
          | _ => destruct m as [[?|]|] eqn:?; simpl in Hrange; try done
          end
      end;
      repeat match type of Hrange with
      | context [if negb ?b then _ else _] => destruct b eqn:?; simpl in Hrange; try done
      end; by injection Hrange as <- <-. }
    split; [by rewrite app_nil_r|]. split; [specialize (Hcount eq_refl); lia|].
    by intros k l1 a l2 [=].
Qed.

(** X14: the attributes of a structure that the constructor returns are, in
    the order of the configuration, those of the sections whose key starts
    with "attribute": each has the name, the type the factory gives for the
    declared type name, the underlying type of that name, the expression and
    the three flags of its section; the same holds of the key. *)
Theorem construct_reads_sections (config : Config) (config_prefix : list string)
    (s : DictionaryStructure) :
  construct DataTypeFactory_get equals parseBool config config_prefix = Returns s ->
  Forall2 (reads_section config config_prefix) (attributes s)
          (attribute_sections config config_prefix)
  /\ forall k, key s = Some k ->
       Forall2 (reads_section config (config_prefix ++ ["key"%string])) k
               (attribute_sections config (config_prefix ++ ["key"%string])).
Proof.
  unfold construct, attribute_sections.
  destruct (has config (config_prefix ++ ["key"%string])) eqn:Hkey;
    destruct (has config (config_prefix ++ ["id"%string])) eqn:Hid; simpl;
    try (by intros [=]).
  - unfold getAttributes.
    destruct (getAttributes_loop _ _ _ (config_prefix ++ ["key"%string]) _ _ _ _ _)
      as [[k he]|] eqn:Hk; simpl; [|by intros [=]].
    case_bool_decide as Hempty; simpl; [by intros [=]|].
    destruct (getAttributes_loop _ _ _ config_prefix _ _ _ _ _)
      as [[attrs he']|] eqn:Hattrs; simpl; [|by intros [=]].
    case_bool_decide as Hnone; [by intros [=]|]. intros [= <-]. simpl.
    apply getAttributes_loop_returns in Hk as (Hkall & _).
    apply getAttributes_loop_returns in Hattrs as (Hall & _).
    split; [done|]. by intros k' [= <-].
  - destruct (makeDictionarySpecialAttribute _ _) as [i|]; simpl; [|by intros [=]].
    destruct (empty (special_name i)); simpl; [by intros [=]|].
    destruct (range_attributes _ _ _ _) as [[lo hi]|]; simpl; [|by intros [=]].
    unfold getAttributes.
    destruct (getAttributes_loop _ _ _ config_prefix _ _ _ _ _)
      as [[attrs he']|] eqn:Hattrs; simpl; [|by intros [=]].
    case_bool_decide as Hnone; [by intros [=]|]. intros [= <-]. simpl.
    apply getAttributes_loop_returns in Hattrs as (Hall & _).
    split; [done|]. by intros k [=].
Qed.

End Built.

Lemma construct_invariants_witness :
  exists s,
    construct sample_factory sample_equals sample_parseBool
              config_by_id ["structure"%string] = Returns s
    /\ attributes s <> []
    /\ (hierarchical_count (attributes s) <= 1)%nat.
Proof.
  eexists. split; [vm_compute; reflexivity|].
  match goal with
  | |- attributes ?s <> [] /\ _ =>
      destruct (construct_invariants sample_factory sample_equals sample_parseBool
                  config_by_id ["structure"%string] s)
        as (Hne & _ & _ & _ & Hcount & _)
  end; [vm_compute; reflexivity|].
  split; [exact Hne | exact Hcount].
Defined.

Lemma construct_reads_sections_witness :
  exists s,
    construct sample_factory sample_equals sample_parseBool
              config_key_range_min ["structure"%string] = Returns s
    /\ Forall2 (reads_section sample_factory sample_parseBool config_key_range_min
                              ["structure"%string])
               (attributes s) ["attribute"%string].
Proof.
  eexists. split; [vm_compute; reflexivity|].
  match goal with
  | |- Forall2 _ (attributes ?s) _ =>
      destruct (construct_reads_sections sample_factory sample_equals sample_parseBool
                  config_key_range_min ["structure"%string] s) as [Hall _]
  end; [vm_compute; reflexivity|].
  exact Hall.
Defined.

(** A key of one attribute that is hierarchical is accepted: the check on
    the hierarchy of a key is made on the attribute that follows. *)
Example hierarchical_key_accepted :
  exists s,
    construct sample_factory sample_equals sample_parseBool
      (structure_of
         [("key"%string,
           Node "" [("attribute"%string,
                     Node "" [("name"%string, leaf "k"); ("type"%string, leaf "UInt64");
                              ("hierarchical"%string, leaf "true")])]);
          ("attribute"%string, attribute_section "a" "String" [])])
      ["structure"%string] = Returns s
    /\ (hierarchical <$> default [] (key s)) = [true].
Proof. eexists. split; [vm_compute; reflexivity | reflexivity]. Qed.

End DictionaryStructure.

(** * [Storages/StorageDictionary.cpp]: a table over a dictionary *)

Module StorageDictionary.

Import DictionaryStructure.

(** [std::string::find(char)]: the first position of the character. *)
Fixpoint String_find (c : Ascii.ascii) (s : string) : option nat :=
  match s with
  | EmptyString => None
  | String a rest => if Ascii.eqb a c then Some 0%nat else S <$> String_find c rest
  end.

(** The engine argument, split at its first dot into the name of a database
    and the name of a dictionary; without a dot the database name is empty. *)
Definition split_name (dictionary_name : string) : string * string :=
  match String_find "."%char dictionary_name with
  | Some pos =>
      (substring 0 pos dictionary_name,
       substring (pos + 1) (String.length dictionary_name - (pos + 1)) dictionary_name)
  | None => (""%string, dictionary_name)
  end.

Abbreviation NameAndTypePair := (string * IDataType)%type.

(** [DictionaryStructure empty_structure;] *)
Definition empty_structure : DictionaryStructure :=
  mkStructure None None [] None None false.

Section WithContext.

(** [std::make_shared<DataTypeUInt64>()]. *)
Variable DataTypeUInt64 : IDataType.

(** [operator<] of [NameAndTypePair], which orders the [std::set]. *)
Variable less : NameAndTypePair -> NameAndTypePair -> bool.

(** The AST of an engine argument, and the string of the literal it
    evaluates to ([evaluateConstantExpressionOrIdentifierAsLiteral], then
    [safeGet<String>] on the value). *)
Variable AST : Type.
Variable literal_string : AST -> Result string.

(** [context.getExternalDictionaries().getDictionary(name)->getStructure()]
    and [context.getDatabase(database)->getDictionary(context, name)
    ->getStructure()]. *)
Variable getExternalDictionary : string -> Result DictionaryStructure.
Variable getDatabaseDictionary : string -> string -> Result DictionaryStructure.

Definition getNamesAndTypes (dictionary_structure : DictionaryStructure)
    : list NameAndTypePair :=
  (match id dictionary_structure with
   | Some i => [(special_name i, DataTypeUInt64)]
   | None => []
   end)
  ++ (match range_min dictionary_structure with
      | Some a => [(typed_name a, typed_type a)]
      | None => []
      end)
  ++ (match range_max dictionary_structure with
      | Some a => [(typed_name a, typed_type a)]
      | None => []
      end)
  ++ (match key dictionary_structure with
      | Some k => (fun a => (name a, type a)) <$> k
      | None => []
      end)
  ++ ((fun a => (name a, type a)) <$> attributes dictionary_structure).

(** Two pairs that the order of the set does not tell apart. *)
Definition equivalent (a b : NameAndTypePair) : bool :=
  negb (less a b) && negb (less b a).

(** [set.find(column) != set.end()], on the set built from [elements]. *)
Definition set_contains (elements : list NameAndTypePair) (column : NameAndTypePair)
    : bool :=
  existsb (fun x => equivalent x column) elements.

Fixpoint check_columns (names_and_types ordinary : list NameAndTypePair)
    : Result unit :=
  match ordinary with
  | [] => Returns tt
  | column :: rest =>
      if negb (set_contains names_and_types column) then
        Throws ("Not found column " +:+ column.1 +:+ " " +:+ getName column.2)
      else check_columns names_and_types rest
  end.

Definition checkNamesAndTypesCompatibleWithDictionary
    (ordinary : list NameAndTypePair) (dictionary_structure : DictionaryStructure)
    : Result unit :=
  check_columns (getNamesAndTypes dictionary_structure) ordinary.

(** [ColumnsDescription], of [Storages/ColumnsDescription.h], with its
    member [ordinary]: the columns that are neither materialized nor
    aliases. *)
Variable ColumnsDescription : Type.
Variable ordinary : ColumnsDescription -> list NameAndTypePair.

Record StorageDictionary := mkStorage {
  table_name : string;
  database_name : string;
  getColumns : ColumnsDescription;
  dictionary_name : string
}.

(** The constructor; the structure is an optional that is dereferenced
    when the table is not attached, to check the ordinary columns. *)
Definition create (table_name_ database_name_ : string)
    (columns_ : ColumnsDescription)
    (dictionary_structure_ : option DictionaryStructure)
    (dictionary_name_ : string) (attach_ : bool) : Outcome StorageDictionary :=
  let this := mkStorage table_name_ database_name_ columns_ dictionary_name_ in
  if negb attach_ then
    match dictionary_structure_ with
    | None => UndefinedBehaviour
    | Some dictionary_structure =>
        match checkNamesAndTypesCompatibleWithDictionary
                (ordinary (getColumns this)) dictionary_structure with
        | Throws e => Raised e
        | Returns _ => Ok this
        end
    end
  else Ok this.

(** The creator that [registerStorageDictionary] registers, on the engine
    arguments, the name and the columns of the table and [attach]. *)
Definition registerStorageDictionary (engine_args : list AST) (table_name_ : string)
    (columns_ : ColumnsDescription) (attach : bool) : Outcome StorageDictionary :=
  match engine_args with
  | [arg] =>
      match literal_string arg with
      | Throws e => Raised e
      | Returns full_name =>
          let '(database_name_, dictionary_name_) := split_name full_name in
          if attach then
            create table_name_ database_name_ columns_ (Some empty_structure)
                   dictionary_name_ true
          else
            match (if empty database_name_ then getExternalDictionary dictionary_name_
                   else getDatabaseDictionary database_name_ dictionary_name_) with
            | Throws e => Raised e
            | Returns dictionary_structure =>
                create table_name_ database_name_ columns_ (Some dictionary_structure)
                       dictionary_name_ false
            end
      end
  | _ => Raised "Storage Dictionary requires single parameter: name of dictionary"
  end.

End WithContext.

Arguments mkStorage {ColumnsDescription}.
Arguments getColumns {ColumnsDescription}.

(** *** The name of the dictionary *)

Lemma append_String (a : Ascii.ascii) (s t : string) :
  String a s +:+ t = String a (s +:+ t).
Proof. reflexivity. Qed.

Lemma append_empty (t : string) : "" +:+ t = t.
Proof. reflexivity. Qed.

Lemma substring_whole (s : string) : substring 0 (String.length s) s = s.
Proof. induction s as [|a s IH]; simpl; by rewrite ?IH. Qed.

Lemma String_find_Some (c : Ascii.ascii) (s : string) : forall pos,
  String_find c s = Some pos ->
  String_find c (substring 0 pos s) = None
  /\ s = substring 0 pos s
         +:+ String c (substring (pos + 1) (String.length s - (pos + 1)) s).
Proof.
  induction s as [|a s IH]; intros pos; simpl; [done|].
  destruct (Ascii.eqb a c) eqn:Hac.
  - intros [= <-]. apply Ascii.eqb_eq in Hac as ->. simpl.
    rewrite Nat.sub_0_r, substring_whole, append_empty. done.
  - destruct (String_find c s) as [p|] eqn:Hfind; simpl; [|done].
    intros [= <-]. destruct (IH p eq_refl) as [Hnone Hjoin]. simpl.
    rewrite Hac, Hnone. split; [done|]. by rewrite append_String, <- Hjoin.
Qed.

Lemma String_find_joined (c : Ascii.ascii) (db n : string) :
  String_find c db = None ->
  String_find c (db +:+ String c n) = Some (String.length db)
  /\ substring 0 (String.length db) (db +:+ String c n) = db
  /\ substring (String.length db + 1)
               (String.length (db +:+ String c n) - (String.length db + 1))
               (db +:+ String c n) = n.
Proof.
  induction db as [|a db IH]; rewrite ?append_empty, ?append_String; simpl.
  - intros _. rewrite Ascii.eqb_refl, Nat.sub_0_r, substring_whole. done.
  - destruct (Ascii.eqb a c); [done|].
    destruct (String_find c db) eqn:Hfind; simpl; [done|]. intros _.
    destruct (IH eq_refl) as (-> & -> & ->). done.
Qed.

(** X19: the database name that [registerStorageDictionary] splits off has
    no dot, and when the argument has a dot, the database name, a dot and
    the dictionary name make up the argument again; when it has none, the
    database name is empty and the dictionary name is the argument. *)
Theorem split_name_joins (full_name : string) :
  let '(db, n) := split_name full_name in
  String_find "."%char db = None
  /\ match String_find "."%char full_name with
     | Some _ => full_name = db +:+ "." +:+ n
     | None => db = ""%string /\ n = full_name
     end.
Proof.
  unfold split_name.
  destruct (String_find "."%char full_name) as [pos|] eqn:Hfind; [|done].
  by apply String_find_Some in Hfind as [Hnone Hjoin].
Qed.

(** X20: a name made of a database name without a dot, a dot and a
    dictionary name is split into these two again, whatever dots the
    dictionary name has. *)
Theorem split_name_of_joined (db n : string) :
  String_find "."%char db = None ->
  split_name (db +:+ "." +:+ n) = (db, n).
Proof.
  intros Hnone. unfold split_name.
  destruct (String_find_joined "."%char db n Hnone) as (Hfind & Hdb & Hn).
  change ("." +:+ n)%string with (String "."%char n).
  by rewrite Hfind, Hdb, Hn.
Qed.

Lemma split_name_of_joined_witness :
  split_name ("db" +:+ "." +:+ "a.b") = ("db"%string, "a.b"%string).
Proof. apply (split_name_of_joined "db" "a.b"). reflexivity. Defined.

(** A leading dot is dropped: the table is then looked up among the
    external dictionaries under the rest of the name. *)
Example leading_dot : split_name ".d" = (""%string, "d"%string).
Proof. reflexivity. Qed.

(** *** The columns of the table *)

Section Columns.

Variable DataTypeUInt64 : IDataType.
Variable less : NameAndTypePair -> NameAndTypePair -> bool.
Variable AST : Type.
Variable literal_string : AST -> Result string.
Variable getExternalDictionary : string -> Result DictionaryStructure.
Variable getDatabaseDictionary : string -> string -> Result DictionaryStructure.

Lemma check_columns_returns (names_and_types ordinary : list NameAndTypePair) :
  check_columns less names_and_types ordinary = Returns tt
  <-> Forall (fun column => exists x, x ∈ names_and_types
                                      /\ equivalent less x column = true) ordinary.
Proof.
  induction ordinary as [|column rest IH]; simpl; [done|].
  rewrite Forall_cons, <- IH. unfold set_contains.
  destruct (existsb _ names_and_types) eqn:Hex; simpl.
  - apply existsb_exists in Hex as (x & Hin & Heq).
    apply list_elem_of_In in Hin. split; [eauto|by intros [_ ?]].
  - split; [done|]. intros [(x & Hin & Heq) _].
    apply list_elem_of_In in Hin.
    assert (existsb (fun x => equivalent less x column) names_and_types = true) as Hyes
      by (apply existsb_exists; eauto).
    congruence.
Qed.

(** X21: when the order of the columns relates no pair to itself, a table
    whose ordinary columns are all among the names and types of the
    dictionary, such as its key, its ranges or its attributes, is accepted. *)
Theorem dictionary_columns_accepted (dictionary_structure : DictionaryStructure)
    (ordinary : list NameAndTypePair) :
  (forall c, less c c = false) ->
  ordinary ⊆ getNamesAndTypes DataTypeUInt64 dictionary_structure ->
  checkNamesAndTypesCompatibleWithDictionary DataTypeUInt64 less ordinary
    dictionary_structure = Returns tt.
Proof.
  intros Hirr Hsub. unfold checkNamesAndTypesCompatibleWithDictionary.
  apply check_columns_returns, Forall_forall. intros c Hc.
  exists c. split; [by apply Hsub|]. unfold equivalent. by rewrite Hirr.
Qed.

Variable ColumnsDescription : Type.
Variable ordinary : ColumnsDescription -> list NameAndTypePair.

(** X22: the creator never dereferences an empty optional; with [attach] it
    returns the table, its name split, for every description of columns as
    soon as the argument is one string; without [attach] a table it returns
    has the description of columns it was given, each ordinary column of
    which is equivalent to a name and type of the structure of the
    dictionary that was looked up: among the external dictionaries when the
    database name is empty, in the database otherwise.  The columns that
    are not ordinary are not looked at. *)
Theorem registerStorageDictionary_outcome (engine_args : list AST)
    (table_name_ : string) (columns_ : ColumnsDescription) (attach : bool) :
  let register :=
    registerStorageDictionary DataTypeUInt64 less AST literal_string
      getExternalDictionary getDatabaseDictionary ColumnsDescription ordinary in
  register engine_args table_name_ columns_ attach <> UndefinedBehaviour
  /\ (forall arg full_name,
        engine_args = [arg] -> literal_string arg = Returns full_name ->
        register engine_args table_name_ columns_ true
        = Ok (mkStorage table_name_ (split_name full_name).1 columns_
                        (split_name full_name).2))
  /\ (forall this,
        register engine_args table_name_ columns_ false = Ok this ->
        exists arg full_name dictionary_structure,
          engine_args = [arg]
          /\ literal_string arg = Returns full_name
          /\ this = mkStorage table_name_ (split_name full_name).1 columns_
                              (split_name full_name).2
          /\ (if empty (split_name full_name).1
              then getExternalDictionary (split_name full_name).2
              else getDatabaseDictionary (split_name full_name).1
                                         (split_name full_name).2)
             = Returns dictionary_structure
          /\ Forall (fun column =>
                       exists x, x ∈ getNamesAndTypes DataTypeUInt64 dictionary_structure
                                 /\ equivalent less x column = true)
                    (ordinary columns_))
  /\ (forall columns', ordinary columns' = ordinary columns_ ->
        match register engine_args table_name_ columns_ attach,
              register engine_args table_name_ columns' attach with
        | Ok _, Ok _ => True
        | Raised e, Raised e' => e = e'
        | _, _ => False
        end).
Proof.
  intros register. subst register. unfold registerStorageDictionary, create.
  split; [|split; [|split]].
  - destruct engine_args as [|arg [|? ?]]; try done.
    destruct (literal_string arg) as [full_name|]; [|done].
    destruct (split_name full_name) as [db n]. destruct attach; simpl; [done|].
    destruct (if empty db then _ else _) as [s|]; [|done].
    by destruct (checkNamesAndTypesCompatibleWithDictionary _ _ _ _).
  - intros arg full_name -> ->. by destruct (split_name full_name).
  - intros this. destruct engine_args as [|arg [|? ?]]; try done.
    destruct (literal_string arg) as [full_name|] eqn:Harg; [|done].
    destruct (split_name full_name) as [db n] eqn:Hsplit. simpl.
    destruct (if empty db then _ else _) as [s|] eqn:Hlookup; [|done].
    destruct (checkNamesAndTypesCompatibleWithDictionary _ _ _ _) as [[]|] eqn:Hcheck;
      [|done].
    intros [= <-]. exists arg, full_name, s. rewrite Hsplit. simpl.
    repeat split; try done. by apply check_columns_returns in Hcheck.
  - intros columns' Hsame.
    destruct engine_args as [|arg [|? ?]]; try done.
    destruct (literal_string arg) as [full_name|]; [|done].
    destruct (split_name full_name) as [db n]. destruct attach; simpl; [done|].
    destruct (if empty db then _ else _) as [s|]; [|done].
    rewrite Hsame.
    by destruct (checkNamesAndTypesCompatibleWithDictionary _ _ _ _).
Qed.

End Columns.

Lemma dictionary_columns_accepted_witness :
  let uint64 := mkDataType "UInt64" true (Returns 8) ""%string (fun s => Returns s) in
  let less := fun a b : NameAndTypePair =>
                bool_decide (String.length a.1 < String.length b.1)%nat in
  let s := mkStructure (Some (mkSpecial "id" "")) None
                       [mkAttribute "value" UInt64 uint64 "" ""%string false false false]
                       None None false in
  checkNamesAndTypesCompatibleWithDictionary uint64 less [("value"%string, uint64)] s
  = Returns tt.
Proof.
  intros uint64 less s.
  apply (dictionary_columns_accepted uint64 less s [("value"%string, uint64)]).
  - intros c. apply bool_decide_eq_false_2. lia.
  - intros c Hc. apply list_elem_of_singleton in Hc as ->. simpl.
    apply list_elem_of_further, list_elem_of_here.
Defined.

End StorageDictionary.


Module AggregatingMemory.

Definition Exception := string.

Section WithAggregator.

(** The aggregator and its state are outside the sources:
    [AggregatedDataVariants] is the state, [executeOnBlock] feeds it a
    block, [convertToChunks] stands for [prepareVariantsToMerge] followed by
    [ConvertingAggregatedToChunksTransform], and [check] is the check of a
    block against the metadata of the source. *)
Variable AggregatedDataVariants : Type.
Variable Chunk : Type.
Variable executeOnBlock : Block -> AggregatedDataVariants -> AggregatedDataVariants.
Variable convertToChunks : AggregatedDataVariants -> list Chunk.
Variable check : Block -> bool.

(** The members of [StorageAggregatingMemory]; an [ActionsDAGPtr] is the
    transformation it stands for, or null. *)
Record StorageAggregatingMemory := mkStorage {
  src_block_header : Block;
  before_aggregation : Block -> Block;
  before_window : option (Chunk -> Chunk);
  before_order_by : option (Chunk -> Chunk);
  final_projection : option (Chunk -> Chunk);
  keys_size : nat;
  empty_result_for_aggregation_by_empty_set : bool;
  many_data : AggregatedDataVariants
}.

Definition set_many_data (v : AggregatedDataVariants) (this : StorageAggregatingMemory) :=
  mkStorage (src_block_header this) (before_aggregation this) (before_window this)
            (before_order_by this) (final_projection this) (keys_size this)
            (empty_result_for_aggregation_by_empty_set this) v.

(** [executeExpression(pipe, expression)]. *)
Definition executeExpression (pipe : list Chunk) (expression : option (Chunk -> Chunk))
    : list Chunk :=
  match expression with
  | None => pipe
  | Some actions => actions <$> pipe
  end.

(** [AggregatingOutputStream::write]. *)
Definition write (block : Block) (this : StorageAggregatingMemory)
    : Exception + StorageAggregatingMemory :=
  if check block then
    let block_for_aggregation := before_aggregation this block in
    inr (set_many_data (executeOnBlock block_for_aggregation (many_data this)) this)
  else inl "Block structure mismatch"%string.

(** The end of the constructor: the state is created, and seeded with the
    empty block when there are no keys. *)
Definition create (header : Block) (before : Block -> Block)
    (window order projection : option (Chunk -> Chunk)) (keys : nat)
    (empty_result : bool) (fresh : AggregatedDataVariants)
    : Exception + StorageAggregatingMemory :=
  let this := mkStorage header before window order projection keys empty_result fresh in
  if (keys =? 0)%nat && negb empty_result then write header this else inr this.

(** [StorageAggregatingMemory::read]. *)
Definition read (this : StorageAggregatingMemory) : list Chunk :=
  let pipe := convertToChunks (many_data this) in
  let pipe := executeExpression pipe (before_window this) in
  let pipe := executeExpression pipe (before_order_by this) in
  executeExpression pipe (final_projection this).

(** [StorageAggregatingMemory::drop]: its body is a comment. *)
Definition drop (this : StorageAggregatingMemory) : StorageAggregatingMemory := this.

(** [StorageAggregatingMemory::truncate]: its body is a comment. *)
Definition truncate (this : StorageAggregatingMemory) : StorageAggregatingMemory := this.

End WithAggregator.

(** A table that counts the rows of its source, by one key. *)
Definition counting_table : Exception + StorageAggregatingMemory nat nat :=
  create nat nat (fun b v => (v + rows b)%nat) (fun _ => true)
         (mkBlock [("x"%string, "UInt64"%string)] 0 (mkBlockInfo false false))
         (fun b => b) None None None 1 false 0%nat.

Definition read_count (this : StorageAggregatingMemory nat nat) : list nat :=
  read nat nat (fun v => match v with O => [] | _ => [v] end) this.

Definition write_rows (n : nat) (this : StorageAggregatingMemory nat nat) :=
  write nat nat (fun b v => (v + rows b)%nat) (fun _ => true)
        (mkBlock [("x"%string, "UInt64"%string)] n (mkBlockInfo false false)) this.

(** C8: on the code, [drop] and [truncate] leave the aggregation state as it
    is, whatever the aggregator: a read after either of them returns what a
    read before it returns; on a table that has aggregated three rows, the
    read after [truncate], or [drop], still returns their count, where a
    fresh table returns nothing. *)
Theorem drop_truncate_keep_state :
  (forall (V C : Type) (convert : V -> list C) (this : StorageAggregatingMemory V C),
      read V C convert (truncate V C this) = read V C convert this
      /\ read V C convert (drop V C this) = read V C convert this)
  /\ exists fresh written,
      counting_table = inr fresh /\ write_rows 3 fresh = inr written
      /\ read_count fresh = []
      /\ read_count (truncate nat nat written) = [3%nat]
      /\ read_count (drop nat nat written) = [3%nat].
Proof.
  split; [done|]. eexists _, _. repeat split.
Qed.

End AggregatingMemory.
